(** * Merging polygons with shortest corridors: a model of [src/utils/geometry.ts]

    The first part of the file is the model, in the order of the source from
    its leaves: the [UnionFind] class, the data of the module, the calls into
    the geometry library, the boundary sampler, the pairwise connector, the
    corridor width, the complete graph and its sort, the Kruskal scan, and
    [mergePolygonsWithShortestCorridors]; then the functions of the page
    component, [src/components/PolygonMerger.tsx], that compute: the filter
    of the features, the bounds, the projection, the paths and [onMerge].
    The second part proves the properties of the model.

    Numbers.  A JavaScript number is modelled by a rational ([Q]): every
    finite double is a rational, and the arithmetic of the model is exact.
    NaN, the infinities and rounding are outside the model, so a statement
    about the value of a product, a quotient or a sum describes the source
    up to the rounding of doubles; the statements below that depend on such
    a value say so.  Comparisons, orders and counts do not depend on it.
    The corridor width is also given on binary64 values ([Double]), where
    rounding decides a claim.

    The geometry library (turf) is not part of the repository.  Its calls are
    the fields of the class [Turf], typed with every way the source can see
    them complete: [turf.centroid] may throw, [turf.buffer] may return
    [undefined], [turf.union] may return [null] or throw.  Every statement
    holds for every instance.

    Arrays are lists.  An index is read with [!!] and written with
    [<[i:=x]>]; the places where the source could read outside an array are
    marked where they occur. *)

From Corelib Require PrimFloat.
From Stdlib Require Import QArith Qround Qabs Qminmax Ascii String Sorting.Sorted Lqa.
From stdpp Require Import base option list.

Set Default Proof Using "Type".

(** ** The disjoint-set structure: [class UnionFind] *)

Module UF.

(** [parent] and [rank] are the two arrays of the class. *)
Record UnionFind := { parent : list nat; rank : list nat }.

(** [constructor(n)]: [parent = [0, 1, ..., n-1]], [rank = [0, ..., 0]]. *)
Definition new (n : nat) : UnionFind :=
  {| parent := seq 0 n; rank := replicate n 0 |}.

(** [this.parent[x] = r] *)
Definition set_parent (uf : UnionFind) (x r : nat) : UnionFind :=
  {| parent := <[x:=r]> (parent uf); rank := rank uf |}.

(** [this.rank[x] = k] *)
Definition set_rank (uf : UnionFind) (x k : nat) : UnionFind :=
  {| parent := parent uf; rank := <[x:=k]> (rank uf) |}.

(** [find(x)], with path compression.  The recursion of the source follows
    parent links; [fuel] bounds its depth.  [None] is "no result in the
    model": the fuel ran out, or [x] is outside the arrays (JavaScript would
    read [undefined] there; the merge never passes such an index). *)
Fixpoint find_rec (fuel : nat) (uf : UnionFind) (x : nat)
  : option (UnionFind * nat) :=
  match fuel with
  | 0 => None
  | S fuel' =>
    px ← parent uf !! x;
    if decide (px = x) then Some (uf, px)
    else
      '(uf', r) ← find_rec fuel' uf px;
      Some (set_parent uf' x r, r)
  end.

(** The depth of a parent chain is below the number of elements, so this
    much fuel is enough (lemma [find_total] below). *)
Definition find (uf : UnionFind) (x : nat) : option (UnionFind * nat) :=
  find_rec (length (parent uf)) uf x.

(** [union(a, b)], by rank. *)
Definition union (uf : UnionFind) (a b : nat) : option UnionFind :=
  '(uf1, ra) ← find uf a;
  '(uf2, rb) ← find uf1 b;
  if decide (ra = rb) then Some uf2
  else
    ka ← rank uf2 !! ra;
    kb ← rank uf2 !! rb;
    if decide (ka < kb) then Some (set_parent uf2 ra rb)
    else if decide (kb < ka) then Some (set_parent uf2 rb ra)
    else Some (set_rank (set_parent uf2 rb ra) ra (S ka)).

(** *** Parent chains *)

(** [path_to p x r d]: following [p] from [x] reaches the self-parent [r]
    after [d] links. *)
Inductive path_to (p : list nat) : nat → nat → nat → Prop :=
| path_root x : p !! x = Some x → path_to p x x 0
| path_step x y r d :
    p !! x = Some y → y ≠ x → path_to p y r d → path_to p x r (S d).

Definition root_of (p : list nat) (x r : nat) : Prop := ∃ d, path_to p x r d.


(** Every index has a root, and the two arrays have one length. *)
Definition wf (uf : UnionFind) : Prop :=
  length (rank uf) = length (parent uf) ∧
  ∀ x, x < length (parent uf) → ∃ r, root_of (parent uf) x r.

Definition same_set (uf : UnionFind) (x y : nat) : Prop :=
  ∃ r, root_of (parent uf) x r ∧ root_of (parent uf) y r.

(** The representative [find] returns, the state it leaves dropped. *)
Definition rep (uf : UnionFind) (x : nat) : option nat := snd <$> find uf x.

(** Number of sets: the indices that are their own parent. *)
Definition roots (p : list nat) : list nat :=
  filter (λ x, p !! x = Some x) (seq 0 (length p)).

Definition count_roots (uf : UnionFind) : nat := length (roots (parent uf)).


(** [uf'] has the sets and the roots of [uf]. *)
Definition same_roots (uf uf' : UnionFind) : Prop :=
  length (parent uf') = length (parent uf) ∧
  ∀ y r, root_of (parent uf') y r ↔ root_of (parent uf) y r.

(** [uf'] is [uf] with the root [loser] hung under the root [winner]. *)
Definition linked (uf uf' : UnionFind) (winner loser : nat) : Prop :=
  length (parent uf') = length (parent uf) ∧
  parent uf !! winner = Some winner ∧ parent uf !! loser = Some loser ∧
  winner ≠ loser ∧
  ∀ y r, root_of (parent uf) y r →
    root_of (parent uf') y (if decide (r = loser) then winner else r).

End UF.

(** ** Connectivity by a list of index pairs *)

(** [connected l x y]: [x] and [y] are joined, directly or transitively, by
    pairs of [l]. *)
Inductive connected (l : list (nat * nat)) : nat → nat → Prop :=
| conn_refl x : connected l x x
| conn_edge x y : (x, y) ∈ l → connected l x y
| conn_sym x y : connected l x y → connected l y x
| conn_trans x y z : connected l x y → connected l y z → connected l x z.

Create HintDb conn.
#[local] Hint Constructors connected : conn.

(** [uf] represents the partition of [0..n-1] generated by [l]. *)
Definition represents (n : nat) (uf : UF.UnionFind) (l : list (nat * nat)) : Prop :=
  UF.wf uf ∧ length (UF.parent uf) = n ∧
  ∀ x y, x < n → y < n → UF.same_set uf x y ↔ connected l x y.

Definition in_range (n : nat) (l : list (nat * nat)) : Prop :=
  ∀ x y, (x, y) ∈ l → x < n ∧ y < n.

(** ** The data model *)

(** A GeoJSON position, read as [pos[0]], [pos[1]]. *)
Definition Position : Type := Q * Q.

(** [Polygon | MultiPolygon] with its [coordinates]: rings of positions, the
    first ring of a polygon being its exterior. *)
Inductive Geometry : Type :=
| Polygon (coordinates : list (list Position))
| MultiPolygon (coordinates : list (list (list Position))).

(** [Feature<Polygon | MultiPolygon>]; only [geometry] is read. *)
Record Feature : Type := { geometry : Geometry }.

(** [Feature<LineString>], as its coordinates. *)
Definition LineString : Type := list Position.

(** [turf.lineString(coords)] wraps the coordinates (it throws on fewer than
    two positions; both call sites pass two). *)
Definition lineString (coords : list Position) : LineString := coords.

(** [turf.bbox]: [[minX, minY, maxX, maxY]]. *)
Definition BBox : Type := Q * Q * Q * Q.

(** An element of [edges] / [debug.pairs]: [{ a, b, distance, seg }]. *)
Module Edge.
Record t : Type := mk { a : nat; b : nat; distance : Q; seg : LineString }.
Definition ends (e : t) : nat * nat := (a e, b e).
End Edge.

(** An element of [mstEdges]: [{ a, b, seg }]. *)
Module MstEdge.
Record t : Type := mk { a : nat; b : nat; seg : LineString }.
Definition ends (e : t) : nat * nat := (a e, b e).
End MstEdge.

(** An entry of [corridorPolygons] is what [turf.buffer] returned, pushed
    under a cast and without a test: [None] is [undefined]. *)
Record MergeDebug : Type := {
  pairs : list Edge.t;
  mstEdges : list MstEdge.t;
  corridorPolygons : list (option Feature)
}.

Record MergeResult : Type := { output : Feature; debug : MergeDebug }.

(** [options?: { corridorFactor?: number }] *)
Record Options : Type := { corridorFactor : option Q }.

(** How a JavaScript call completes: with a value, or with a thrown [Error]
    and its message. *)
Inductive result (A : Type) : Type :=
| Ok (a : A)
| Throw (msg : string).
Arguments Ok {A} a.
Arguments Throw {A} msg.

#[global] Instance result_bind : MBind result := λ A B f m,
  match m with Ok a => f a | Throw msg => Throw msg end.
#[global] Instance result_ret : MRet result := λ A a, Ok a.

(** ** The geometry library *)

(** The calls the module makes into turf.  [turf_distance] may throw, as the
    [try] around it in [bboxDiagonalKm] provides for.  [turf_centroid] may
    throw: it does on a shape without a position.  [turf_buffer] may return
    [undefined] ([None]): it does for the radius 0.  [turf_union] is called
    with the accumulator and a piece that may be [undefined]; it may throw,
    and it may return [null] ([None]): it does for an empty union.
    Distances and lengths are in kilometers ([{ units: "kilometers" }] at
    every call site). *)
Class Turf : Type := {
  turf_bbox : list Feature → BBox;
  turf_distance : Position → Position → result Q;
  turf_length : LineString → Q;
  turf_centroid : Feature → result Position;
  turf_buffer : LineString → Q → option Feature;
  turf_union : Feature → option Feature → result (option Feature)
}.

(** [turf.clone]: a deep copy.  Values of the model carry no identity, so the
    copy is the value; the module never mutates a shape. *)
Definition clone (f : Feature) : Feature := f.

(** ** [samplePerimeterPoints] *)

(** [p.geometry.type === "Polygon" ? [p.geometry.coordinates]
                                   : p.geometry.coordinates] *)
Definition polys_of (p : Feature) : list (list (list Position)) :=
  match geometry p with
  | Polygon c => [c]
  | MultiPolygon c => c
  end.

(** [targetPerRing / (ring.length - 1)].  It is evaluated only under
    [i + 1 < ring.length], where the divisor is at least 1. *)
Definition per_edge (targetPerRing : Q) (len : nat) : Q :=
  (targetPerRing / (inject_Z (Z.of_nat len) - 1))%Q.

(** The point [[a[0] + (b[0] - a[0]) * t, a[1] + (b[1] - a[1]) * t]] with
    [t = s / Math.ceil(targetPerRing / (ring.length - 1))], in exact
    arithmetic. *)
Definition interpolate (a b : Position) (targetPerRing : Q) (len : nat) (s : Z)
  : Position :=
  let t := (inject_Z s / inject_Z (Qceiling (per_edge targetPerRing len)))%Q in
  ((a.1 + (b.1 - a.1) * t)%Q, (a.2 + (b.2 - a.2) * t)%Q).

(** [for (let s = 1; s < targetPerRing / (ring.length - 1); s++)], entered
    at [s]; [fuel] bounds the number of rounds. *)
Fixpoint edge_loop (fuel : nat) (s : Z) (a b : Position)
    (targetPerRing : Q) (len : nat) : list Position :=
  match fuel with
  | 0 => []
  | S fuel' =>
    if Qlt_le_dec (inject_Z s) (per_edge targetPerRing len)
    then interpolate a b targetPerRing len s
           :: edge_loop fuel' (s + 1) a b targetPerRing len
    else []
  end.

(** The loop leaves by its test before [s] reaches the ceiling of the bound,
    so this fuel is never used up (lemma [edge_loop_fuel]). *)
Definition edge_samples (a b : Position) (targetPerRing : Q) (len : nat)
  : list Position :=
  edge_loop (Z.to_nat (Qceiling (per_edge targetPerRing len))) 1 a b
    targetPerRing len.

(** [for (let i = 0; i + 1 < ring.length; i++)] with [a = ring[i]],
    [b = ring[i + 1]]: the consecutive pairs. *)
Fixpoint ring_edges (ring : list Position) : list (Position * Position) :=
  match ring with
  | a :: (b :: _) as rest => (a, b) :: ring_edges rest
  | _ => []
  end.

(** What one polygon contributes: nothing without rings, else the vertices
    of the exterior ring followed by the points along its edges. *)
Definition sample_poly (targetPerRing : Q) (poly : list (list Position))
  : list Position :=
  match poly with
  | [] => []
  | ring :: _ =>
    ring ++
    flat_map (λ ab, edge_samples ab.1 ab.2 targetPerRing (length ring))
      (ring_edges ring)
  end.

Definition samplePerimeterPoints (p : Feature) (targetPerRing : Q)
  : list Position :=
  flat_map (sample_poly targetPerRing) (polys_of p).

(** ** [shortestSegmentBetween] *)

(** [best: { pa, pb, d } | null] *)
Record Best : Type := { pa : Position; pb : Position; d : Q }.

(** [if (!best || d < best.d) best = { pa, pb, d }] *)
Definition better (best : option Best) (p q : Position) (dist : Q) : option Best :=
  match best with
  | None => Some {| pa := p; pb := q; d := dist |}
  | Some cur =>
    if Qlt_le_dec dist (d cur) then Some {| pa := p; pb := q; d := dist |}
    else best
  end.

Section Geometry.
Context {T : Turf}.

(** The inner loop, [for (const pb of samplesB)]. *)
Fixpoint scan_pb (p : Position) (samplesB : list Position) (best : option Best)
  : result (option Best) :=
  match samplesB with
  | [] => Ok best
  | q :: rest =>
    dist ← turf_distance p q;
    scan_pb p rest (better best p q dist)
  end.

(** The outer loop, [for (const pa of samplesA)]. *)
Fixpoint scan_pa (samplesA samplesB : list Position) (best : option Best)
  : result (option Best) :=
  match samplesA with
  | [] => Ok best
  | p :: rest =>
    best' ← scan_pb p samplesB best;
    scan_pa rest samplesB best'
  end.

Definition shortestSegmentBetween (a b : Feature) : result LineString :=
  let samplesA := samplePerimeterPoints a 24 in
  let samplesB := samplePerimeterPoints b 24 in
  best ← scan_pa samplesA samplesB None;
  match best with
  | None =>
    ca ← turf_centroid a;
    cb ← turf_centroid b;
    Ok (lineString [ca; cb])
  | Some best => Ok (lineString [pa best; pb best])
  end.

(** ** [bboxDiagonalKm] and the corridor width *)

(** [try { return turf.distance(...) } catch { return 1 }] *)
Definition bboxDiagonalKm (bbox : BBox) : Q :=
  let '(minX, minY, maxX, maxY) := bbox in
  match turf_distance (minX, minY) (maxX, maxY) with
  | Ok dist => dist
  | Throw _ => 1
  end.

End Geometry.

(** [x || y] on numbers: [0] is the falsy one. *)
Definition or_else (x y : Q) : Q := if Qeq_bool x 0 then y else x.

(** [options?.corridorFactor ?? 1] *)
Definition corridorFactor_or_1 (options : option Options) : Q :=
  match options with
  | Some {| corridorFactor := Some f |} => f
  | _ => 1
  end.

(** [(diagKm || 1) * 0.02 * (options?.corridorFactor ?? 1)], in exact
    arithmetic. *)
Definition corridorWidthKm (diagKm : Q) (options : option Options) : Q :=
  (or_else diagKm 1 * (2 # 100) * corridorFactor_or_1 options)%Q.

(** The same expression on binary64 values, with the two roundings of its
    two products. *)
Module Double.
Import PrimFloat.

(** [x || y] on doubles: [0], [-0] and [NaN] are the falsy ones. *)
Definition or_else (x y : float) : float :=
  if (eqb x 0 || negb (eqb x x))%bool then y else x.

(** [0.02]: the double nearest to it. *)
Definition two_percent : float := 0x1.47ae147ae147bp-6%float.

(** [(diagKm || 1) * 0.02 * (options?.corridorFactor ?? 1)] *)
Definition corridorWidthKm (diagKm : float) (corridorFactor : option float)
  : float :=
  (or_else diagKm 1 * two_percent
   * match corridorFactor with Some f => f | None => 1 end)%float.

End Double.

(** ** The complete graph and its sort *)

(** The index pairs in the order of the two loops,
    [for i in 0..n-1, for j in i+1..n-1]. *)
Definition index_pairs (n : nat) : list (nat * nat) :=
  flat_map (λ i, map (λ j, (i, j)) (seq (S i) (n - S i))) (seq 0 n).

(** Running a throwing function over a list, left to right. *)
Fixpoint for_each {A B : Type} (f : A → result B) (l : list A) : result (list B) :=
  match l with
  | [] => Ok []
  | x :: rest =>
    y ← f x;
    ys ← for_each f rest;
    Ok (y :: ys)
  end.

Section Geometry.
Context {T : Turf}.

(** The body of the inner loop.  [i] and [j] are below [polys.length] there;
    an index outside would read [undefined] and throw a [TypeError]. *)
Definition make_edge (polys : list Feature) (ij : nat * nat) : result Edge.t :=
  match polys !! ij.1, polys !! ij.2 with
  | Some pi, Some pj =>
    seg ← shortestSegmentBetween pi pj;
    let distance := turf_length seg in
    Ok (Edge.mk ij.1 ij.2 distance seg)
  | _, _ => Throw "TypeError"
  end.

Definition build_edges (polys : list Feature) : result (list Edge.t) :=
  for_each (make_edge polys) (index_pairs (length polys)).

End Geometry.

(** The comparator, [(x, y) => x.distance - y.distance]. *)
Definition by_distance (x y : Edge.t) : Q := (Edge.distance x - Edge.distance y)%Q.

(** [Array.prototype.sort] is stable, and a stable sort has one result for a
    comparator that orders consistently, as this one does.  The model is the
    stable insertion sort: [x] goes before the first [y] it does not exceed. *)
Fixpoint sort_insert (x : Edge.t) (l : list Edge.t) : list Edge.t :=
  match l with
  | [] => [x]
  | y :: rest =>
    if Qle_bool (by_distance x y) 0 then x :: l else y :: sort_insert x rest
  end.

Fixpoint sort (l : list Edge.t) : list Edge.t :=
  match l with
  | [] => []
  | x :: rest => sort_insert x (sort rest)
  end.

(** ** The Kruskal scan *)

Definition to_mst (e : Edge.t) : MstEdge.t :=
  MstEdge.mk (Edge.a e) (Edge.b e) (Edge.seg e).

(** [for (const e of edges) { if (uf.find(e.a) !== uf.find(e.b)) {
      uf.union(e.a, e.b); mstEdges.push(...);
      if (mstEdges.length === n - 1) break; } }]
    [None] only where [find] has no result in the model. *)
Fixpoint kruskal_scan (n : nat) (uf : UF.UnionFind) (mstEdges : list MstEdge.t)
    (edges : list Edge.t) : option (UF.UnionFind * list MstEdge.t) :=
  match edges with
  | [] => Some (uf, mstEdges)
  | e :: rest =>
    '(uf1, ra) ← UF.find uf (Edge.a e);
    '(uf2, rb) ← UF.find uf1 (Edge.b e);
    if decide (ra ≠ rb) then
      uf3 ← UF.union uf2 (Edge.a e) (Edge.b e);
      let mstEdges' := mstEdges ++ [to_mst e] in
      if decide (Z.of_nat (length mstEdges') = (Z.of_nat n - 1)%Z)
      then Some (uf3, mstEdges')
      else kruskal_scan n uf3 mstEdges' rest
    else kruskal_scan n uf2 mstEdges rest
  end.

(** [const uf = new UnionFind(n); const mstEdges = []; for ...] *)
Definition kruskal (n : nat) (edges : list Edge.t)
  : option (UF.UnionFind * list MstEdge.t) :=
  kruskal_scan n (UF.new n) [] edges.

(** ** Corridors, union and the whole operation *)

Section Geometry.
Context {T : Turf}.

(** [for (const e of mstEdges) corridorPolygons.push(turf.buffer(e.seg, w))] *)
Definition corridors (mstEdges : list MstEdge.t) (corridorWidthKm : Q)
  : list (option Feature) :=
  map (λ e, turf_buffer (MstEdge.seg e) corridorWidthKm) mstEdges.

(** [accumulated = accumulated ? turf.union(accumulated, piece) : piece].
    The accumulator is [null] ([None]) at the start and whenever the union
    returned [null]; an unset accumulator takes the piece as it is, a shape
    or [undefined]. *)
Definition accumulate (accumulated : option Feature) (piece : option Feature)
  : result (option Feature) :=
  match accumulated with
  | Some acc => turf_union acc piece
  | None => Ok piece
  end.

(** [for (const piece of allPieces) accumulated = ...], entered with
    [accumulated]; a throw of [turf.union] leaves the loop. *)
Fixpoint union_loop (allPieces : list (option Feature))
    (accumulated : option Feature) : result (option Feature) :=
  match allPieces with
  | [] => Ok accumulated
  | piece :: rest =>
    accumulated' ← accumulate accumulated piece;
    union_loop rest accumulated'
  end.

(** The loop over [allPieces] from [null], and
    [if (!accumulated) throw new Error("Union failed")] after it. *)
Definition union_all (allPieces : list (option Feature)) : result Feature :=
  accumulated ← union_loop allPieces None;
  match accumulated with
  | Some accumulated => Ok accumulated
  | None => Throw "Union failed"
  end.

(** [mergePolygonsWithShortestCorridors].  The outer [option] is [None] only
    where the model of [find] has no result; [result] is what the call does. *)
Definition mergePolygonsWithShortestCorridors
    (features : list Feature) (options : option Options)
  : option (result MergeResult) :=
  let polys := map clone features in
  let n := length polys in
  match polys with
  | [only] =>
    Some (Ok {| output := only;
                debug := {| pairs := []; mstEdges := []; corridorPolygons := [] |} |})
  | _ =>
    let bboxAll := turf_bbox polys in
    let diagKm := bboxDiagonalKm bboxAll in
    let width := corridorWidthKm diagKm options in
    match build_edges polys with
    | Throw msg => Some (Throw msg)
    | Ok unsorted =>
      let edges := sort unsorted in
      '(uf, mst) ← kruskal n edges;
      let corridorPolygons := corridors mst width in
      let allPieces := map Some polys ++ corridorPolygons in
      Some (accumulated ← union_all allPieces;
            Ok {| output := accumulated;
                  debug := {| pairs := edges; mstEdges := mst;
                              corridorPolygons := corridorPolygons |} |})
    end
  end.

End Geometry.

(** ** Vocabulary of the statements *)

(** The invariant of the Kruskal scan, for the structure [uf], the accepted
    edges [mst] and the edges [seen] so far: [uf] represents the partition
    generated by the accepted edges, each accepted edge removed one set, and
    the two ends of every edge seen are in one set. *)
Definition scan_inv (n : nat) (uf : UF.UnionFind) (mst : list MstEdge.t)
    (seen : list Edge.t) : Prop :=
  represents n uf (map MstEdge.ends mst) ∧
  in_range n (map MstEdge.ends mst) ∧
  UF.count_roots uf + length mst = n ∧
  ∀ e, e ∈ seen → UF.same_set uf (Edge.a e) (Edge.b e).


(** The ends of every edge are indices of shapes. *)
Definition edges_in_range (n : nat) (edges : list Edge.t) : Prop :=
  ∀ e, e ∈ edges → Edge.a e < n ∧ Edge.b e < n.

(** Ascending by distance. *)
Definition ascending (edges : list Edge.t) : Prop :=
  StronglySorted (λ x y, (Edge.distance x <= Edge.distance y)%Q) edges.

#[global] Instance Qlt_decision (x y : Q) : Decision (x < y)%Q :=
  match Qlt_le_dec x y with
  | left Hlt => left Hlt
  | right Hle => right (Qle_not_lt _ _ Hle)
  end.

(** Sum of a list of numbers. *)
Definition total (l : list Q) : Q := fold_right Qplus 0%Q l.

(** A spanning tree of the [n] shapes drawn from [edges]: [n - 1] of the
    edges that join all the shapes. *)
Definition spanning_tree (n : nat) (edges tree : list Edge.t) : Prop :=
  (∀ e, e ∈ tree → e ∈ edges) ∧
  length tree + 1 = n ∧
  ∀ x y, x < n → y < n → connected (map Edge.ends tree) x y.

(** Every pair of distinct indices has its edge. *)
Definition complete (n : nat) (edges : list Edge.t) : Prop :=
  ∀ i j, i < j → j < n → ∃ e, e ∈ edges ∧ Edge.a e = i ∧ Edge.b e = j.

(** The pairs of sampled points in the order the two loops of
    [shortestSegmentBetween] visit them. *)
Definition sample_pairs (samplesA samplesB : list Position)
  : list (Position * Position) :=
  flat_map (λ p, map (λ q, (p, q)) samplesB) samplesA.

Section Geometry.
Context {T : Turf}.

(** [best'] is what scanning the pairs [l] makes of [best]: either no pair
    was strictly closer than [best], which is kept; or [best'] is the first
    pair of [l] whose distance is the least, strictly below that of [best]. *)
Definition scanned (l : list (Position * Position)) (best best' : option Best)
  : Prop :=
  (best' = best ∧
   ∀ p q dq, (p, q) ∈ l → turf_distance p q = Ok dq →
     match best with Some cur => (d cur <= dq)%Q | None => False end) ∨
  (∃ l1 p q l2 dd,
     l = l1 ++ (p, q) :: l2 ∧
     best' = Some {| pa := p; pb := q; d := dd |} ∧
     turf_distance p q = Ok dd ∧
     match best with Some cur => (dd < d cur)%Q | None => True end ∧
     (∀ p' q' d', (p', q') ∈ l1 → turf_distance p' q' = Ok d' → (dd < d')%Q) ∧
     (∀ p' q' d', (p', q') ∈ l2 → turf_distance p' q' = Ok d' → (dd <= d')%Q)).

(** [turf.distance] returns on every pair of [l]. *)
Definition distance_defined (l : list (Position * Position)) : Prop :=
  ∀ p q, (p, q) ∈ l → ∃ dq, turf_distance p q = Ok dq.

End Geometry.

Section Geometry.
Context {T : Turf}.

(** What the graph builder records in an edge: the connector of the two
    shapes at its indices, and the length of that connector. *)
Definition edge_of_pair (polys : list Feature) (e : Edge.t) : Prop :=
  ∃ pi pj, polys !! Edge.a e = Some pi ∧ polys !! Edge.b e = Some pj ∧
    shortestSegmentBetween pi pj = Ok (Edge.seg e) ∧
    Edge.distance e = turf_length (Edge.seg e).

End Geometry.

(** ** A planar instance of the library, for concrete runs

    Small stand-ins for the turf calls on flat coordinates: the taxicab
    distance, the length of a path by it, the box around all positions, the
    mean position, a box around a segment for its buffer, and the collection
    of the polygons of both shapes for their union.  They complete as the
    turf calls do: the centroid throws on a shape without a position, the
    buffer of width 0 is [undefined], the union of two shapes that cover no
    area is [null], and the union with an [undefined] piece throws. *)
Module Planar.

Definition distance (p q : Position) : Q :=
  (Qabs (p.1 - q.1) + Qabs (p.2 - q.2))%Q.

Fixpoint length (line : LineString) : Q :=
  match line with
  | p :: (q :: _) as rest => (distance p q + length rest)%Q
  | _ => 0%Q
  end.

Definition positions (f : Feature) : list Position := concat (concat (polys_of f)).

Definition box (l : list Position) : BBox :=
  match l with
  | [] => (0, 0, 0, 0)%Q
  | p :: rest =>
    fold_left (λ '(minX, minY, maxX, maxY) q,
                 (Qmin minX q.1, Qmin minY q.2, Qmax maxX q.1, Qmax maxY q.2))
      rest (p.1, p.2, p.1, p.2)
  end.

Definition bbox (fs : list Feature) : BBox := box (flat_map positions fs).

Definition centroid (f : Feature) : result Position :=
  match positions f with
  | [] => Throw "coordinates must contain numbers"
  | l =>
    let k := inject_Z (Z.of_nat (List.length l)) in
    Ok ((total (map fst l) / k)%Q, (total (map snd l) / k)%Q)
  end.

Definition buffer (line : LineString) (w : Q) : option Feature :=
  if Qeq_bool w 0 then None
  else
    let '(minX, minY, maxX, maxY) := box line in
    Some {| geometry := Polygon
              [[((minX - w)%Q, (minY - w)%Q); ((maxX + w)%Q, (minY - w)%Q);
                ((maxX + w)%Q, (maxY + w)%Q); ((minX - w)%Q, (maxY + w)%Q);
                ((minX - w)%Q, (minY - w)%Q)]] |}.

(** A shape that covers no area: its box has no width or no height. *)
Definition flat (f : Feature) : bool :=
  let '(minX, minY, maxX, maxY) := box (positions f) in
  Qeq_bool minX maxX || Qeq_bool minY maxY.

Definition union (f : Feature) (g : option Feature) : result (option Feature) :=
  match g with
  | None => Throw "TypeError"
  | Some g =>
    if flat f && flat g then Ok None
    else Ok (Some {| geometry := MultiPolygon (polys_of f ++ polys_of g) |})
  end.

#[export] Instance turf : Turf := {|
  turf_bbox := bbox;
  turf_distance := λ p q, Ok (distance p q);
  turf_length := length;
  turf_centroid := centroid;
  turf_buffer := buffer;
  turf_union := union
|}.

(** The axis-parallel square with corners [(x0, y0)] and [(x1, y1)], as a
    closed ring of five positions. *)
Definition square (x0 y0 x1 y1 : Q) : Feature :=
  {| geometry := Polygon [[(x0, y0); (x1, y0); (x1, y1); (x0, y1); (x0, y0)]] |}.

(** Three squares: (0,0)-(1,1), (3,0.2)-(4.2,1.2), (2,2.5)-(2.8,3.2). *)
Definition three_squares : list Feature :=
  [square 0 0 1 1; square 3 (2 # 10) (42 # 10) (12 # 10);
   square 2 (25 # 10) (28 # 10) (32 # 10)].

(** The edges the graph builder makes of the three squares, in its order. *)
Definition three_squares_edges : list Edge.t :=
  Eval vm_compute in
    match build_edges (map clone three_squares) with
    | Ok unsorted => unsorted
    | Throw _ => []
    end.


End Planar.

(** ** Further vocabulary for the disjoint-set structure *)

(** Ranks grow along parent links: an index that is not its own parent has
    a rank strictly below the rank of its parent. *)
Definition rank_increases (uf : UF.UnionFind) : Prop :=
  ∀ x y kx ky,
    UF.parent uf !! x = Some y → y ≠ x →
    UF.rank uf !! x = Some kx → UF.rank uf !! y = Some ky → kx < ky.

(** ** The page component: [src/components/PolygonMerger.tsx] *)

(** A geometry of a parsed feature: a polygon, a multi-polygon, or a
    geometry of another type, of which the component reads nothing. *)
Inductive AnyGeometry : Type :=
| AnyPolygon (coordinates : list (list Position))
| AnyMultiPolygon (coordinates : list (list (list Position)))
| OtherGeometry.

(** A feature of a parsed collection; its [geometry] may be [null]. *)
Record AnyFeature : Type := { any_geometry : option AnyGeometry }.

Record FeatureCollection : Type := { fc_features : list AnyFeature }.

(** The test of [flattenToPolygons] with the cast that follows it:
    [f.geometry && (f.geometry.type === "Polygon" ||
                    f.geometry.type === "MultiPolygon")]. *)
Definition as_polygon (f : AnyFeature) : option Feature :=
  match any_geometry f with
  | Some (AnyPolygon c) => Some {| geometry := Polygon c |}
  | Some (AnyMultiPolygon c) => Some {| geometry := MultiPolygon c |}
  | _ => None
  end.

(** [fc.features.filter(...) as Feature<Polygon | MultiPolygon>[]] *)
Definition flattenToPolygons (fc : FeatureCollection) : list Feature :=
  omap as_polygon (fc_features fc).

(** [{ minX, minY, maxX, maxY }] *)
Record Bounds : Type := { minX : Q; minY : Q; maxX : Q; maxY : Q }.

(** The four running values of [computeBounds].  [None] is the value they
    start from: [Infinity] for the minima, [-Infinity] for the maxima. *)
Record Extent : Type := {
  lowX : option Q; lowY : option Q; highX : option Q; highY : option Q
}.

(** [if (x < min) min = x] *)
Definition lower (m : option Q) (x : Q) : option Q :=
  match m with
  | None => Some x
  | Some v => if Qlt_le_dec x v then Some x else m
  end.

(** [if (x > max) max = x] *)
Definition raise (m : option Q) (x : Q) : option Q :=
  match m with
  | None => Some x
  | Some v => if Qlt_le_dec v x then Some x else m
  end.

(** The body of [for (const [x, y] of ring)]. *)
Definition see (e : Extent) (p : Position) : Extent :=
  {| lowX := lower (lowX e) p.1; lowY := lower (lowY e) p.2;
     highX := raise (highX e) p.1; highY := raise (highY e) p.2 |}.

(** [geom.type === "Polygon" ? geom.coordinates
     : geom.type === "MultiPolygon" ? geom.coordinates.flat(1) : []],
    and nothing for a feature without geometry ([continue]). *)
Definition rings_of (f : AnyFeature) : list (list Position) :=
  match any_geometry f with
  | Some (AnyPolygon c) => c
  | Some (AnyMultiPolygon c) => concat c
  | _ => []
  end.

Definition default_bounds : Bounds :=
  {| minX := 0; minY := 0; maxX := 1; maxY := 1 |}.

(** The three loops of [computeBounds]. *)
Definition extent_of (fc : FeatureCollection) : Extent :=
  fold_left
    (λ e f, fold_left (λ e ring, fold_left see ring e) (rings_of f) e)
    (fc_features fc)
    {| lowX := None; lowY := None; highX := None; highY := None |}.

(** [if (!isFinite(minX)) return { minX: 0, minY: 0, maxX: 1, maxY: 1 };
     return { minX, minY, maxX, maxY }].  The four values leave their start
    together (lemma [extent_together]), so the last case does not arise. *)
Definition computeBounds (fc : FeatureCollection) : Bounds :=
  let e := extent_of fc in
  match lowX e with
  | None => default_bounds
  | Some x0 =>
    match lowY e, highX e, highY e with
    | Some y0, Some x1, Some y1 =>
      {| minX := x0; minY := y0; maxX := x1; maxY := y1 |}
    | _, _, _ => default_bounds
    end
  end.

(** [project([x, y], bounds, w, h)], in exact arithmetic. *)
Definition project (p : Position) (bounds : Bounds) (w h : Q) : Position :=
  let pad := 20%Q in
  let width := (w - pad * 2)%Q in
  let height := (h - pad * 2)%Q in
  let scaleX := (width / or_else (maxX bounds - minX bounds) 1)%Q in
  let scaleY := (height / or_else (maxY bounds - minY bounds) 1)%Q in
  let s := Qmin scaleX scaleY in
  let px := (pad + (p.1 - minX bounds) * s)%Q in
  let py := (pad + height - (p.2 - minY bounds) * s)%Q in
  (px, py).

(** [.replace(/^L/, "M")] *)
Definition replace_leading_L (s : string) : string :=
  match s with
  | String "L"%char rest => String "M"%char rest
  | _ => s
  end.

Section Svg.

(** How JavaScript writes a number in a string, as [Array.prototype.join]
    and template literals do. *)
Variable show_number : Q → string.

(** [project(pt, bounds, w, h).join(",")] *)
Definition point_text (pt : Position) (bounds : Bounds) (w h : Q) : string :=
  let q := project pt bounds w h in
  String.concat "," [show_number q.1; show_number q.2].

(** [ring.map(...).map((p) => `L${p}`).join(" ").replace(/^L/, "M") + " Z"] *)
Definition ringToPath (ring : list Position) (bounds : Bounds) (w h : Q)
  : string :=
  (replace_leading_L
     (String.concat " "
        (map (λ p, ("L" ++ p)%string)
           (map (λ pt, point_text pt bounds w h) ring)))
   ++ " Z")%string.

(** [polygonPath(geom, bounds, w, h)] *)
Definition polygonPath (geom : Geometry) (bounds : Bounds) (w h : Q) : string :=
  match geom with
  | Polygon coordinates =>
    String.concat " " (map (λ ring, ringToPath ring bounds w h) coordinates)
  | MultiPolygon coordinates =>
    String.concat " "
      (map (λ poly,
              String.concat " " (map (λ ring, ringToPath ring bounds w h) poly))
         coordinates)
  end.

End Svg.

(** The state [onMerge] writes: [result], [debug], [error]. *)
Record UiState : Type := {
  ui_result : option Feature;
  ui_debug : option MergeDebug;
  ui_error : option string
}.

(** [onMerge()], for the parsed collection ([null] when the text is not a
    feature collection) and the factor of the slider.  A call that throws
    leaves by the exception. *)
Definition onMerge {T : Turf} (parsed : option FeatureCollection) (factor : Q)
    (st : UiState) : option (result UiState) :=
  let st := {| ui_result := ui_result st; ui_debug := ui_debug st;
               ui_error := None |} in
  match parsed with
  | None =>
    Some (Ok {| ui_result := ui_result st; ui_debug := ui_debug st;
                ui_error := Some "Invalid GeoJSON FeatureCollection"%string |})
  | Some fc =>
    let polys := flattenToPolygons fc in
    if decide (length polys < 2) then
      Some (Ok {| ui_result := ui_result st; ui_debug := ui_debug st;
                  ui_error := Some "Provide at least two polygons"%string |})
    else
      merged ← mergePolygonsWithShortestCorridors polys
                 (Some {| corridorFactor := Some factor |});
      Some (r ← merged;
            Ok {| ui_result := Some (output r); ui_debug := Some (debug r);
                  ui_error := ui_error st |})
  end.

(** The positions [computeBounds] visits, in its order. *)
Definition visited (fc : FeatureCollection) : list Position :=
  concat (flat_map rings_of (fc_features fc)).

(** [const example]: the three squares the page starts with. *)
Definition example : FeatureCollection :=
  {| fc_features :=
       [ {| any_geometry := Some (AnyPolygon
              [[(0, 0); (1, 0); (1, 1); (0, 1); (0, 0)]%Q]) |};
         {| any_geometry := Some (AnyPolygon
              [[(3, 2 # 10); (42 # 10, 2 # 10); (42 # 10, 12 # 10);
                (3, 12 # 10); (3, 2 # 10)]%Q]) |};
         {| any_geometry := Some (AnyPolygon
              [[(2, 25 # 10); (28 # 10, 25 # 10); (28 # 10, 32 # 10);
                (2, 32 # 10); (2, 25 # 10)]%Q]) |} ] |}.


Section Svg.
Variable show_number : Q → string.

(** The line commands for the points after the first: [" L"] and the point,
    for each. *)
Definition line_commands (rest : list Position) (bounds : Bounds) (w h : Q)
  : string :=
  fold_right
    (λ pt acc, (" L" ++ point_text show_number pt bounds w h ++ acc)%string)
    ""%string rest.

End Svg.
(** * Properties *)

(** ** The disjoint-set structure *)

Module UFL.
Import UF.

Lemma path_to_lt p x r d : path_to p x r d → x < length p.
Proof. destruct 1; eapply lookup_lt_Some; eauto. Qed.

Lemma path_to_root p x r d : path_to p x r d → p !! r = Some r.
Proof. induction 1; auto. Qed.

Lemma path_to_det p x r d r' d' :
  path_to p x r d → path_to p x r' d' → r = r' ∧ d = d'.
Proof.
  intros H; revert r' d'.
  induction H as [x Hx | x y r d Hx Hne _ IH]; intros r' d' H'.
  - inversion H' as [? Hr | ? y' ? ? Hy' Hne' Hp']; subst; [done | congruence].
  - inversion H' as [? Hr | ? y' ? e Hy' Hne' Hp']; subst; [congruence |].
    assert (y' = y) by congruence; subst.
    destruct (IH _ _ Hp'); subst; done.
Qed.

Lemma root_of_det p x r r' : root_of p x r → root_of p x r' → r = r'.
Proof. intros [d H] [d' H']. by destruct (path_to_det _ _ _ _ _ _ H H'). Qed.

Lemma root_of_lt p x r : root_of p x r → x < length p.
Proof. intros [d H]. by eapply path_to_lt. Qed.

Lemma root_of_root p x r : root_of p x r → p !! r = Some r.
Proof. intros [d H]. by eapply path_to_root. Qed.

Lemma root_of_self p r : p !! r = Some r → root_of p r r.
Proof. intros H. exists 0. by constructor. Qed.

Lemma root_of_root_lt p x r : root_of p x r → r < length p.
Proof. intros H. eapply lookup_lt_Some, root_of_root, H. Qed.

(** The nodes of a chain are pairwise distinct, so a chain is shorter than
    the array. *)
Lemma path_to_nodes p x r d :
  path_to p x r d →
  ∃ l : list nat, length l = S d ∧ NoDup l ∧
    ∀ y, y ∈ l → ∃ r' d', path_to p y r' d' ∧ d' ≤ d.
Proof.
  induction 1 as [x Hx | x y r d Hx Hne Hp (l & Hl & Hnd & Hin)].
  - exists [x]. split; [done |]. split; [apply NoDup_singleton |].
    intros y ->%list_elem_of_singleton. exists x, 0. split; [by constructor | lia].
  - exists (x :: l). split; [simpl; lia |]. split.
    + constructor; [| done]. intros Hxl.
      destruct (Hin _ Hxl) as (r' & d' & Hp' & Hle).
      assert (Hx' : path_to p x r (S d)) by (econstructor; eauto).
      destruct (path_to_det _ _ _ _ _ _ Hp' Hx'). lia.
    + intros z [-> | Hz]%elem_of_cons.
      * exists r, (S d). split; [econstructor; eauto | lia].
      * destruct (Hin _ Hz) as (r' & d' & ? & ?). exists r', d'. split; [done | lia].
Qed.

Lemma path_to_depth p x r d : path_to p x r d → d < length p.
Proof.
  intros (l & Hl & Hnd & Hin)%path_to_nodes.
  assert (Hsub : l ⊆+ seq 0 (length p)).
  { apply NoDup_submseteq; [done |]. intros y Hy.
    destruct (Hin _ Hy) as (r' & d' & Hp & _).
    apply elem_of_seq. apply path_to_lt in Hp. lia. }
  apply submseteq_length in Hsub. rewrite length_seq in Hsub. lia.
Qed.

(** *** [find]: the root is returned, the sets are unchanged *)

(** Redirecting [x] to its own root keeps every root. *)
Lemma compress_root p x r :
  root_of p x r → ∀ y r', root_of p y r' → root_of (<[x:=r]> p) y r'.
Proof.
  intros Hx y r' [d Hy].
  induction Hy as [y Hy | y y' r' d Hy Hne Hp IH].
  - destruct (decide (y = x)) as [-> | Hyx].
    + assert (r = x) as -> by (eapply root_of_det; [exact Hx | by apply root_of_self]).
      apply root_of_self. rewrite list_lookup_insert_eq; [done | by eapply lookup_lt_Some].
    + apply root_of_self. by rewrite list_lookup_insert_ne.
  - destruct (decide (y = x)) as [-> | Hyx].
    + assert (r = r') as <-.
      { eapply root_of_det; [exact Hx |]. exists (S d). econstructor; eauto. }
      assert (Hr : p !! r = Some r) by eapply root_of_root, Hx.
      assert (r ≠ x) by (intros ->; congruence).
      exists 1. eapply path_step with (y := r); [| done |].
      * rewrite list_lookup_insert_eq; [done | by eapply lookup_lt_Some].
      * constructor. by rewrite list_lookup_insert_ne.
    + destruct IH as [d' IH]. exists (S d').
      eapply path_step; [rewrite list_lookup_insert_ne; eauto | done | done].
Qed.

Lemma find_rec_spec fuel uf x r d :
  path_to (parent uf) x r d → d < fuel →
  ∃ uf', find_rec fuel uf x = Some (uf', r) ∧
    rank uf' = rank uf ∧
    length (parent uf') = length (parent uf) ∧
    parent uf' !! x = Some r ∧
    ∀ y r', root_of (parent uf) y r' → root_of (parent uf') y r'.
Proof.
  revert x d. induction fuel as [| fuel IH]; intros x d Hp Hd; [lia |].
  simpl. inversion Hp as [? Hx | ? y ? d0 Hx Hne Hy]; subst.
  - rewrite Hx. simpl. rewrite decide_True by done. by exists uf.
  - rewrite Hx. simpl. rewrite decide_False by done.
    destruct (IH y d0 Hy ltac:(lia)) as (uf1 & -> & Hrk & Hlen & _ & Hroots).
    simpl. eexists. split; [done |]. simpl.
    assert (Hx1 : root_of (parent uf1) x r).
    { apply Hroots. exists (S d0). done. }
    repeat split.
    + done.
    + by rewrite length_insert.
    + rewrite list_lookup_insert_eq; [done |]. by eapply root_of_lt.
    + intros z r' Hz. by apply compress_root, Hroots.
Qed.


Lemma roots_backward uf p' :
  wf uf → length p' = length (parent uf) →
  (∀ y r, root_of (parent uf) y r → root_of p' y r) →
  ∀ y r, root_of p' y r ↔ root_of (parent uf) y r.
Proof.
  intros [_ Hwf] Hlen Hfw y r. split; [| apply Hfw].
  intros Hy. destruct (Hwf y) as [r0 Hr0].
  { rewrite <- Hlen. by eapply root_of_lt. }
  by rewrite (root_of_det _ _ _ _ Hy (Hfw _ _ Hr0)).
Qed.

Lemma same_roots_wf uf uf' :
  same_roots uf uf' → rank uf' = rank uf → wf uf → wf uf'.
Proof.
  intros [Hlen Hr] Hrk [Hl Hwf]. split; [congruence |].
  intros x Hx. destruct (Hwf x) as [r Hxr]; [lia |]. exists r. by apply Hr.
Qed.

Lemma same_roots_same_set uf uf' x y :
  same_roots uf uf' → same_set uf' x y ↔ same_set uf x y.
Proof.
  intros [_ Hr]. unfold same_set. by setoid_rewrite Hr.
Qed.

Lemma same_roots_count uf uf' : same_roots uf uf' → count_roots uf' = count_roots uf.
Proof.
  intros [Hlen Hr]. unfold count_roots, roots. rewrite Hlen. f_equal.
  apply list_filter_iff. intros x. split; intros Hx.
  - eapply root_of_root, Hr, root_of_self, Hx.
  - eapply root_of_root, Hr, root_of_self, Hx.
Qed.

Lemma same_roots_refl uf : same_roots uf uf.
Proof. by split. Qed.

Lemma same_roots_trans uf1 uf2 uf3 :
  same_roots uf1 uf2 → same_roots uf2 uf3 → same_roots uf1 uf3.
Proof.
  intros [Hl1 H1] [Hl2 H2]. split; [congruence |].
  intros y r. by rewrite H2, H1.
Qed.

(** [find] returns, with the root of [x], and leaves a well-formed structure
    with the same sets, in which [x] points at its root. *)
Lemma find_total uf x :
  wf uf → x < length (parent uf) →
  ∃ uf' r, find uf x = Some (uf', r) ∧ root_of (parent uf) x r ∧
    wf uf' ∧ same_roots uf uf' ∧ rank uf' = rank uf ∧ parent uf' !! x = Some r.
Proof.
  intros Hwf Hx. destruct (proj2 Hwf x Hx) as [r [d Hp]].
  destruct (find_rec_spec (length (parent uf)) uf x r d Hp) as
    (uf' & Hf & Hrk & Hlen & Hpx & Hroots); [by eapply path_to_depth |].
  assert (Hsame : same_roots uf uf').
  { split; [done |]. by apply roots_backward. }
  exists uf', r. repeat split; try done.
  - by exists d.
  - by apply (same_roots_wf uf).
  - by apply (same_roots_wf uf).
  - apply Hsame.
  - apply Hsame.
Qed.




Lemma rep_root uf x r :
  wf uf → x < length (parent uf) → rep uf x = Some r ↔ root_of (parent uf) x r.
Proof.
  intros Hwf Hx. destruct (find_total uf x Hwf Hx) as (uf' & r0 & Hf & Hr0 & _).
  unfold rep. rewrite Hf. simpl. split.
  - by intros [= <-].
  - intros Hr. f_equal. by eapply root_of_det.
Qed.

(** *** [union]: the two sets are merged, the others are untouched *)

(** Hanging the root [ra] under the root [rb]. *)
Lemma link_root p ra rb :
  p !! ra = Some ra → p !! rb = Some rb → ra ≠ rb →
  ∀ y r, root_of p y r →
    root_of (<[ra:=rb]> p) y (if decide (r = ra) then rb else r).
Proof.
  intros Hra Hrb Hne y r [d Hy].
  induction Hy as [y Hy | y y' r d Hy Hney Hp IH].
  - destruct (decide (y = ra)) as [-> | Hya].
    + exists 1. eapply path_step with (y := rb); [| done |].
      * rewrite list_lookup_insert_eq; [done | by eapply lookup_lt_Some].
      * constructor. by rewrite list_lookup_insert_ne.
    + apply root_of_self. by rewrite list_lookup_insert_ne.
  - assert (y ≠ ra) by congruence. destruct IH as [d' IH]. exists (S d').
    eapply path_step; [rewrite list_lookup_insert_ne; eauto | done | done].
Qed.


Lemma linked_wf uf uf' w l :
  linked uf uf' w l → length (rank uf') = length (rank uf) → wf uf → wf uf'.
Proof.
  intros (Hlen & _ & _ & _ & Hr) Hrk [Hl Hwf]. split; [congruence |].
  intros x Hx. destruct (Hwf x) as [r Hxr]; [lia |]. eexists. by apply Hr.
Qed.

Lemma linked_same_set uf uf' w l x y :
  wf uf → linked uf uf' w l →
  x < length (parent uf) → y < length (parent uf) →
  same_set uf' x y ↔
    same_set uf x y ∨
    (root_of (parent uf) x w ∧ root_of (parent uf) y l) ∨
    (root_of (parent uf) x l ∧ root_of (parent uf) y w).
Proof.
  intros [_ Hwf] (Hlen & Hw & Hl & Hne & Hr) Hx Hy.
  destruct (Hwf x Hx) as [rx Hrx]. destruct (Hwf y Hy) as [ry Hry].
  pose proof (Hr _ _ Hrx) as Hrx'. pose proof (Hr _ _ Hry) as Hry'.
  split.
  - intros (r & Hxr & Hyr).
    pose proof (root_of_det _ _ _ _ Hxr Hrx') as E1.
    pose proof (root_of_det _ _ _ _ Hyr Hry') as E2.
    destruct (decide (rx = l)) as [-> | Hn1], (decide (ry = l)) as [-> | Hn2].
    + left. by exists l.
    + right; right. split; [done | congruence].
    + right; left. split; [congruence | done].
    + left. exists ry. split; [congruence | done].
  - intros [(r & Hxr & Hyr) | [[Hxw Hyl] | [Hxl Hyw]]].
    + rewrite (root_of_det _ _ _ _ Hrx Hxr) in Hrx'.
      rewrite (root_of_det _ _ _ _ Hry Hyr) in Hry'. by eexists.
    + rewrite (root_of_det _ _ _ _ Hrx Hxw) in Hrx'.
      rewrite (root_of_det _ _ _ _ Hry Hyl) in Hry'.
      rewrite decide_False in Hrx' by done. rewrite decide_True in Hry' by done.
      by exists w.
    + rewrite (root_of_det _ _ _ _ Hrx Hxl) in Hrx'.
      rewrite (root_of_det _ _ _ _ Hry Hyw) in Hry'.
      rewrite decide_True in Hrx' by done. rewrite decide_False in Hry' by done.
      by exists w.
Qed.

Lemma filter_ext_elem (P Q : nat → Prop)
    `{!∀ x, Decision (P x), !∀ x, Decision (Q x)} (l : list nat) :
  (∀ x, x ∈ l → Q x ↔ P x) → filter Q l = filter P l.
Proof.
  induction l as [| a l IH]; intros Hext; [done |].
  rewrite !filter_cons.
  rewrite IH by (intros x Hx; apply Hext; by right).
  destruct (decide (Q a)) as [Hq | Hq], (decide (P a)) as [Hp | Hp]; try done.
  - apply Hext in Hq; [done | by left].
  - apply Hext in Hp; [done | by left].
Qed.

Lemma filter_drop_one (P Q : nat → Prop)
    `{!∀ x, Decision (P x), !∀ x, Decision (Q x)} (l : list nat) z :
  NoDup l → z ∈ l → P z → (∀ x, Q x ↔ P x ∧ x ≠ z) →
  S (length (filter Q l)) = length (filter P l).
Proof.
  intros Hnd Hz Hpz HQ. induction Hnd as [| a l Ha Hnd IH]; [by inversion Hz |].
  apply elem_of_cons in Hz as [<- | Hz].
  - rewrite (filter_cons_True P) by done.
    rewrite (filter_cons_False Q) by (rewrite HQ; tauto).
    simpl. f_equal. f_equal. apply filter_ext_elem.
    intros x Hx. rewrite HQ. split; [tauto |]. intros Hp. split; [done |].
    by intros ->.
  - rewrite !filter_cons.
    destruct (decide (Q a)) as [Hq | Hq], (decide (P a)) as [Hp | Hp]; simpl.
    + f_equal. by apply IH.
    + apply HQ in Hq. tauto.
    + exfalso. apply Hq, HQ. split; [done |]. by intros ->.
    + by apply IH.
Qed.

Lemma linked_count uf uf' w l :
  wf uf → linked uf uf' w l → S (count_roots uf') = count_roots uf.
Proof.
  intros [_ Hwf] (Hlen & Hw & Hl & Hne & Hr).
  unfold count_roots, roots. rewrite Hlen.
  apply (filter_drop_one _ _ _ l).
  - apply NoDup_seq.
  - apply elem_of_seq. apply lookup_lt_Some in Hl. lia.
  - done.
  - intros x. split.
    + intros Hx.
      assert (Hxn : x < length (parent uf)).
      { rewrite <- Hlen. by eapply lookup_lt_Some. }
      destruct (Hwf x Hxn) as [r Hxr].
      pose proof (root_of_det _ _ _ _ (Hr _ _ Hxr) (root_of_self _ _ Hx)) as E.
      case_decide; subst; [done |].
      split; [| done]. eapply root_of_root, Hxr.
    + intros [Hx Hxl]. pose proof (Hr _ _ (root_of_self _ _ Hx)) as Hx'.
      rewrite decide_False in Hx' by done. eapply root_of_root, Hx'.
Qed.

Lemma linked_same_roots uf uf2 uf' w l :
  same_roots uf uf2 → linked uf2 uf' w l → linked uf uf' w l.
Proof.
  intros [Hlen Hr] (Hlen' & Hw & Hl & Hne & Hr').
  repeat split; [congruence | | | done |].
  - eapply root_of_root, Hr, root_of_self, Hw.
  - eapply root_of_root, Hr, root_of_self, Hl.
  - intros y r Hy. by apply Hr', Hr.
Qed.

Lemma set_parent_linked uf w l :
  parent uf !! w = Some w → parent uf !! l = Some l → w ≠ l →
  linked uf (set_parent uf l w) w l.
Proof.
  intros Hw Hl Hne. repeat split; try done.
  - simpl. by rewrite length_insert.
  - intros y r Hy. simpl. by apply link_root.
Qed.

(** What [union] does by rank, read off the code: the root of lower rank is
    hung under the other; on a tie [rb] is hung under [ra], whose rank grows
    by one. *)
Lemma union_by_rank uf a b uf1 ra uf2 rb ka kb :
  find uf a = Some (uf1, ra) → find uf1 b = Some (uf2, rb) → ra ≠ rb →
  rank uf2 !! ra = Some ka → rank uf2 !! rb = Some kb →
  union uf a b = Some
    (if decide (ka < kb) then set_parent uf2 ra rb
     else if decide (kb < ka) then set_parent uf2 rb ra
     else set_rank (set_parent uf2 rb ra) ra (S ka)).
Proof.
  intros Ha Hb Hne Hka Hkb. unfold union. rewrite Ha. simpl. rewrite Hb. simpl.
  rewrite decide_False by done. rewrite Hka. simpl. rewrite Hkb. simpl.
  by repeat case_decide.
Qed.

Lemma union_same_root uf a b uf1 r uf2 :
  find uf a = Some (uf1, r) → find uf1 b = Some (uf2, r) →
  union uf a b = Some uf2.
Proof.
  intros Ha Hb. unfold union. rewrite Ha. simpl. rewrite Hb. simpl.
  by rewrite decide_True.
Qed.

(** [union] returns.  Either the two roots coincide and nothing changes, or
    one root is hung under the other. *)
Lemma union_total uf a b :
  wf uf → a < length (parent uf) → b < length (parent uf) →
  ∃ uf' ra rb, union uf a b = Some uf' ∧
    root_of (parent uf) a ra ∧ root_of (parent uf) b rb ∧ wf uf' ∧
    ((ra = rb ∧ same_roots uf uf') ∨
     (ra ≠ rb ∧ (linked uf uf' ra rb ∨ linked uf uf' rb ra))).
Proof.
  intros Hwf Ha Hb.
  destruct (find_total uf a Hwf Ha) as (uf1 & ra & Hfa & Hra & Hwf1 & Hs1 & Hrk1 & _).
  assert (Hb1 : b < length (parent uf1)) by (rewrite (proj1 Hs1); done).
  destruct (find_total uf1 b Hwf1 Hb1) as (uf2 & rb & Hfb & Hrb & Hwf2 & Hs2 & Hrk2 & _).
  assert (Hs : same_roots uf uf2) by (by eapply same_roots_trans).
  assert (Hrb0 : root_of (parent uf) b rb) by (by apply Hs1).
  destruct (decide (ra = rb)) as [<- | Hne].
  { exists uf2, ra, ra. split; [by eapply union_same_root |].
    split; [done |]. split; [done |]. split; [done |]. by left. }
  assert (Hra2 : parent uf2 !! ra = Some ra).
  { eapply root_of_root. apply Hs. exact Hra. }
  assert (Hrb2 : parent uf2 !! rb = Some rb).
  { eapply root_of_root. apply Hs. exact Hrb0. }
  destruct (lookup_lt_is_Some_2 (rank uf2) ra) as [ka Hka].
  { rewrite (proj1 Hwf2). by eapply lookup_lt_Some. }
  destruct (lookup_lt_is_Some_2 (rank uf2) rb) as [kb Hkb].
  { rewrite (proj1 Hwf2). by eapply lookup_lt_Some. }
  eexists _, ra, rb. split; [by eapply union_by_rank |].
  split; [done |]. split; [done |].
  destruct (decide (ka < kb)); [| destruct (decide (kb < ka))].
  - assert (Hl : linked uf (set_parent uf2 ra rb) rb ra).
    { eapply linked_same_roots; [done |]. by apply set_parent_linked. }
    split; [| right; auto].
    eapply linked_wf; [exact Hl | | done]. simpl. congruence.
  - assert (Hl : linked uf (set_parent uf2 rb ra) ra rb).
    { eapply linked_same_roots; [done |]. by apply set_parent_linked. }
    split; [| right; auto].
    eapply linked_wf; [exact Hl | | done]. simpl. congruence.
  - assert (Hl : linked uf (set_rank (set_parent uf2 rb ra) ra (S ka)) ra rb).
    { eapply linked_same_roots; [done |].
      apply (set_parent_linked uf2 ra rb); done. }
    split; [| right; auto].
    eapply linked_wf; [exact Hl | | done]. simpl. rewrite length_insert. congruence.
Qed.

(** [union] in full: the two [find]s leave the sets as they were, and the
    link is made by rank. *)
Lemma union_spec uf a b :
  wf uf → a < length (parent uf) → b < length (parent uf) →
  ∃ uf1 ra uf2 rb uf',
    find uf a = Some (uf1, ra) ∧ find uf1 b = Some (uf2, rb) ∧
    root_of (parent uf) a ra ∧ root_of (parent uf) b rb ∧
    same_roots uf uf2 ∧ rank uf2 = rank uf ∧
    union uf a b = Some uf' ∧ wf uf' ∧
    (ra = rb → uf' = uf2) ∧
    (ra ≠ rb → ∃ ka kb,
       rank uf !! ra = Some ka ∧ rank uf !! rb = Some kb ∧
       uf' = if decide (ka < kb) then set_parent uf2 ra rb
             else if decide (kb < ka) then set_parent uf2 rb ra
             else set_rank (set_parent uf2 rb ra) ra (S ka)).
Proof.
  intros Hwf Ha Hb.
  destruct (find_total uf a Hwf Ha) as (uf1 & ra & Hfa & Hra & Hwf1 & Hs1 & Hrk1 & _).
  assert (Hb1 : b < length (parent uf1)) by (rewrite (proj1 Hs1); done).
  destruct (find_total uf1 b Hwf1 Hb1) as (uf2 & rb & Hfb & Hrb & Hwf2 & Hs2 & Hrk2 & _).
  destruct (union_total uf a b Hwf Ha Hb) as (uf' & ra' & rb' & Hu & _ & _ & Hwf' & _).
  exists uf1, ra, uf2, rb, uf'.
  assert (Hrb0 : root_of (parent uf) b rb) by (by apply Hs1).
  split; [done |]. split; [done |]. split; [done |]. split; [done |].
  split; [by eapply same_roots_trans |]. split; [congruence |].
  split; [done |]. split; [done |]. split.
  - intros ->. rewrite (union_same_root _ _ _ _ _ _ Hfa Hfb) in Hu. congruence.
  - intros Hne.
    destruct (lookup_lt_is_Some_2 (rank uf2) ra) as [ka Hka].
    { rewrite (proj1 Hwf2), (proj1 Hs2), (proj1 Hs1). by eapply root_of_root_lt. }
    destruct (lookup_lt_is_Some_2 (rank uf2) rb) as [kb Hkb].
    { rewrite (proj1 Hwf2), (proj1 Hs2), (proj1 Hs1). by eapply root_of_root_lt. }
    exists ka, kb. rewrite <- Hrk1, <- Hrk2. split; [done |]. split; [done |].
    rewrite (union_by_rank _ _ _ _ _ _ _ _ _ Hfa Hfb Hne Hka Hkb) in Hu. congruence.
Qed.

Lemma new_wf n : wf (new n).
Proof.
  split; [simpl; by rewrite length_replicate, length_seq |].
  simpl. rewrite length_seq. intros x Hx. exists x. apply root_of_self.
  by apply lookup_seq_lt.
Qed.

Lemma new_length n : length (parent (new n)) = n.
Proof. simpl. apply length_seq. Qed.

Lemma new_root_of n x r : root_of (parent (new n)) x r ↔ x < n ∧ r = x.
Proof.
  split.
  - intros H. pose proof (root_of_lt _ _ _ H) as Hx. rewrite new_length in Hx.
    split; [done |]. eapply root_of_det; [exact H |].
    apply root_of_self. simpl. by apply lookup_seq_lt.
  - intros [Hx ->]. apply root_of_self. simpl. by apply lookup_seq_lt.
Qed.

Lemma new_count n : count_roots (new n) = n.
Proof.
  unfold count_roots, roots. simpl. rewrite length_seq.
  assert (E : ∀ l : list nat, (∀ x, x ∈ l → seq 0 n !! x = Some x) →
    filter (λ x, seq 0 n !! x = Some x) l = l).
  { induction l as [| a l IH]; intros Hl; [done |].
    rewrite filter_cons_True by (apply Hl; by left).
    f_equal. apply IH. intros x Hx. apply Hl. by right. }
  rewrite E; [apply length_seq |].
  intros x Hx%elem_of_seq. apply lookup_seq_lt. lia.
Qed.

End UFL.


Lemma connected_mono l l' x y :
  (∀ e, e ∈ l → e ∈ l') → connected l x y → connected l' x y.
Proof. intros Hsub. induction 1; eauto with conn. Qed.

(** Closing a relation that already is an equivalence on [0..n-1]. *)
Lemma connected_ind_equiv (n : nat) (R : nat → nat → Prop) l :
  (∀ x, x < n → R x x) → (∀ x y, R x y → R y x) →
  (∀ x y z, R x y → R y z → R x z) →
  (∀ x y, (x, y) ∈ l → x < n ∧ y < n ∧ R x y) →
  ∀ x y, connected l x y → x = y ∨ (x < n ∧ y < n ∧ R x y).
Proof.
  intros Hrefl Hsym Htrans Hedge x y H.
  induction H as [x | x y Hin | x y _ IH | x y z _ IH1 _ IH2].
  - by left.
  - right. by apply Hedge.
  - destruct IH as [-> | (? & ? & ?)]; [by left | right; auto].
  - destruct IH1 as [-> | (? & ? & ?)]; [done |].
    destruct IH2 as [<- | (? & ? & ?)]; [right; auto | right; eauto].
Qed.


Lemma same_set_refl uf x : UF.wf uf → x < length (UF.parent uf) → UF.same_set uf x x.
Proof. intros [_ Hwf] Hx. destruct (Hwf x Hx) as [r Hr]. by exists r. Qed.

Lemma same_set_sym uf x y : UF.same_set uf x y → UF.same_set uf y x.
Proof. intros (r & ? & ?). by exists r. Qed.

Lemma same_set_trans uf x y z :
  UF.same_set uf x y → UF.same_set uf y z → UF.same_set uf x z.
Proof.
  intros (r & Hx & Hy) (r' & Hy' & Hz).
  rewrite <- (UFL.root_of_det _ _ _ _ Hy Hy') in Hz. by exists r.
Qed.

Lemma same_set_lt uf x y :
  UF.same_set uf x y → x < length (UF.parent uf) ∧ y < length (UF.parent uf).
Proof. intros (r & Hx & Hy). split; by eapply UFL.root_of_lt. Qed.

Lemma represents_new n : represents n (UF.new n) [].
Proof.
  split; [apply UFL.new_wf |]. split; [apply UFL.new_length |].
  intros x y Hx Hy. split.
  - intros (r & [_ ->]%UFL.new_root_of & [_ E]%UFL.new_root_of). subst. constructor.
  - intros H.
    destruct (connected_ind_equiv n (λ x y, x = y) [] ) with (x := x) (y := y)
      as [-> | (_ & _ & ->)]; try done; try congruence.
    + intros ? ? Hin. by apply elem_of_nil in Hin.
    + exists y. split; by apply UFL.new_root_of.
    + exists y. split; by apply UFL.new_root_of.
Qed.

Lemma represents_same_roots n uf uf' l :
  UF.same_roots uf uf' → UF.rank uf' = UF.rank uf →
  represents n uf l → represents n uf' l.
Proof.
  intros Hs Hrk (Hwf & Hlen & Hc). split; [by eapply UFL.same_roots_wf |].
  split; [destruct Hs; congruence |].
  intros x y Hx Hy. rewrite UFL.same_roots_same_set by done. by apply Hc.
Qed.

(** One [union] adds one pair to the represented list. *)
Lemma represents_union n uf l a b uf' :
  represents n uf l → a < n → b < n → in_range n l →
  UF.union uf a b = Some uf' →
  represents n uf' (l ++ [(a, b)]) ∧
  (UF.same_set uf a b → UF.count_roots uf' = UF.count_roots uf) ∧
  (¬ UF.same_set uf a b → S (UF.count_roots uf') = UF.count_roots uf).
Proof.
  intros (Hwf & Hlen & Hc) Ha Hb Hrange Hu.
  destruct (UFL.union_total uf a b) as (uf'' & ra & rb & Hu' & Hra & Hrb & Hwf' & Hcase);
    [done | lia | lia |].
  rewrite Hu in Hu'. injection Hu' as <-.
  assert (Hlen' : length (UF.parent uf') = n).
  { destruct Hcase as [[_ [Hl _]] | [_ [(Hl & _) | (Hl & _)]]]; congruence. }
  assert (Hab : UF.same_set uf a b ↔ ra = rb).
  { split.
    - intros (r & Har & Hbr).
      rewrite (UFL.root_of_det _ _ _ _ Hra Har). by eapply UFL.root_of_det.
    - intros ->. by exists rb. }
  assert (Hss : ∀ x y, x < n → y < n →
    UF.same_set uf' x y ↔
      UF.same_set uf x y ∨ (UF.same_set uf x a ∧ UF.same_set uf y b) ∨
      (UF.same_set uf x b ∧ UF.same_set uf y a)).
  { intros x y Hx Hy.
    assert (Hroot_a : ∀ z, UF.same_set uf z a ↔ UF.root_of (UF.parent uf) z ra).
    { intros z. split.
      - intros (r & Hz & Har). by rewrite (UFL.root_of_det _ _ _ _ Hra Har).
      - intros Hz. by exists ra. }
    assert (Hroot_b : ∀ z, UF.same_set uf z b ↔ UF.root_of (UF.parent uf) z rb).
    { intros z. split.
      - intros (r & Hz & Hbr). by rewrite (UFL.root_of_det _ _ _ _ Hrb Hbr).
      - intros Hz. by exists rb. }
    rewrite !Hroot_a, !Hroot_b.
    destruct Hcase as [[-> Hs] | [Hne [Hl | Hl]]].
    - rewrite UFL.same_roots_same_set by done. split; [by left |].
      intros [H | [[H1 H2] | [H1 H2]]]; [done | by exists rb | by exists rb].
    - rewrite (UFL.linked_same_set uf uf' ra rb) by (done || lia). tauto.
    - rewrite (UFL.linked_same_set uf uf' rb ra) by (done || lia). tauto. }
  split; [split; [done | split; [done |]] | split].
  - intros x y Hx Hy. rewrite Hss by done. split.
    + intros [H | [[H1 H2] | [H1 H2]]].
      * apply Hc in H; [| done..].
        eapply connected_mono; [| exact H]. intros e He. apply elem_of_app. by left.
      * apply Hc in H1; [| done..]. apply Hc in H2; [| done..].
        eapply conn_trans; [eapply connected_mono; [| exact H1] |].
        { intros e He. apply elem_of_app. by left. }
        eapply conn_trans; [apply conn_edge; apply elem_of_app; right; by left |].
        apply conn_sym. eapply connected_mono; [| exact H2].
        intros e He. apply elem_of_app. by left.
      * apply Hc in H1; [| done..]. apply Hc in H2; [| done..].
        eapply conn_trans; [eapply connected_mono; [| exact H1] |].
        { intros e He. apply elem_of_app. by left. }
        eapply conn_trans;
          [apply conn_sym, conn_edge; apply elem_of_app; right; by left |].
        apply conn_sym. eapply connected_mono; [| exact H2].
        intros e He. apply elem_of_app. by left.
    + intros H.
      destruct (connected_ind_equiv n (UF.same_set uf') (l ++ [(a, b)]))
        with (x := x) (y := y) as [-> | (_ & _ & H')]; try done.
      * intros z Hz. apply same_set_refl; [done | lia].
      * apply same_set_sym.
      * apply same_set_trans.
      * intros u v [Hin | [= -> ->]%list_elem_of_singleton]%elem_of_app.
        -- destruct (Hrange _ _ Hin) as [Hu1 Hv1]. split; [done |]. split; [done |].
           apply Hss; [done.. |]. left. apply Hc; [done.. |]. by apply conn_edge.
        -- split; [done |]. split; [done |]. apply Hss; [done.. |].
           right; left. split; apply same_set_refl; (done || lia).
      * left. apply same_set_refl; [done | lia].
      * by apply Hss.
  - intros Hsame. apply Hab in Hsame.
    destruct Hcase as [[_ Hs] | [Hne _]]; [by apply UFL.same_roots_count | done].
  - intros Hns. destruct Hcase as [[E _] | [_ [Hl | Hl]]].
    + by apply Hab in E.
    + by eapply UFL.linked_count.
    + by eapply UFL.linked_count.
Qed.

(** *** Counting sets *)

Lemma elem_of_roots p x : x ∈ UF.roots p ↔ p !! x = Some x.
Proof.
  unfold UF.roots. rewrite list_elem_of_filter, elem_of_seq. split; [tauto |].
  intros H. split; [done |]. apply lookup_lt_Some in H. lia.
Qed.

Lemma NoDup_roots p : NoDup (UF.roots p).
Proof. apply NoDup_filter, NoDup_seq. Qed.

(** Two roots of one set are equal. *)
Lemma same_set_roots uf q q' :
  UF.parent uf !! q = Some q → UF.parent uf !! q' = Some q' →
  UF.same_set uf q q' → q = q'.
Proof.
  intros Hq Hq' (r & Hr & Hr').
  rewrite (UFL.root_of_det _ _ _ _ (UFL.root_of_self _ _ Hq) Hr).
  by rewrite (UFL.root_of_det _ _ _ _ (UFL.root_of_self _ _ Hq') Hr').
Qed.

(** A finer partition has at least as many sets. *)
Lemma count_refine uf1 uf2 :
  UF.wf uf1 → length (UF.parent uf2) = length (UF.parent uf1) →
  (∀ x y, UF.same_set uf1 x y → UF.same_set uf2 x y) →
  UF.count_roots uf2 ≤ UF.count_roots uf1.
Proof.
  intros [_ Hwf1] Hlen Href.
  assert (Hinj : ∀ l2 : list nat, NoDup l2 →
    (∀ q, q ∈ l2 → UF.parent uf2 !! q = Some q) →
    ∃ l1 : list nat, length l1 = length l2 ∧ NoDup l1 ∧
      ∀ z, z ∈ l1 → ∃ q, q ∈ l2 ∧ UF.root_of (UF.parent uf1) q z).
  { induction 1 as [| q l2 Hq Hnd IH]; intros Hroots.
    { exists []. split; [done |]. split; [constructor |]. by intros z ?%elem_of_nil. }
    destruct IH as (l1 & Hl1 & Hnd1 & Hin1).
    { intros q' Hq'. apply Hroots. by right. }
    assert (Hq2 : UF.parent uf2 !! q = Some q) by (apply Hroots; by left).
    destruct (Hwf1 q) as [z Hz].
    { rewrite <- Hlen. by eapply lookup_lt_Some. }
    exists (z :: l1). split; [simpl; congruence |]. split.
    - constructor; [| done]. intros Hzl.
      destruct (Hin1 z Hzl) as (q' & Hq'l & Hq'z).
      assert (q = q'); [| by subst].
      eapply same_set_roots; [done | apply Hroots; by right |].
      apply Href. by exists z.
    - intros z' [-> | Hz']%elem_of_cons.
      + exists q. split; [by left | done].
      + destruct (Hin1 z' Hz') as (q' & ? & ?). exists q'. split; [by right | done]. }
  destruct (Hinj (UF.roots (UF.parent uf2))) as (l1 & Hl1 & Hnd1 & Hin1).
  { apply NoDup_roots. }
  { intros q. apply elem_of_roots. }
  unfold UF.count_roots. rewrite <- Hl1.
  apply submseteq_length, NoDup_submseteq; [done |].
  intros z Hz. destruct (Hin1 z Hz) as (q & _ & Hqz).
  apply elem_of_roots. by eapply UFL.root_of_root.
Qed.

Lemma count_roots_pos uf :
  UF.wf uf → 0 < length (UF.parent uf) → 0 < UF.count_roots uf.
Proof.
  intros [_ Hwf] Hn. destruct (Hwf 0 Hn) as [r Hr].
  assert (Hin : r ∈ UF.roots (UF.parent uf)).
  { apply elem_of_roots. by eapply UFL.root_of_root. }
  unfold UF.count_roots. destruct (UF.roots (UF.parent uf)); [by inversion Hin | simpl; lia].
Qed.

(** One root: all indices are in one set; and conversely. *)
Lemma count_one_same_set uf x y :
  UF.wf uf → UF.count_roots uf = 1 →
  x < length (UF.parent uf) → y < length (UF.parent uf) → UF.same_set uf x y.
Proof.
  intros [_ Hwf] Hc Hx Hy.
  destruct (Hwf x Hx) as [rx Hrx]. destruct (Hwf y Hy) as [ry Hry].
  assert (Hin : ∀ z r, UF.root_of (UF.parent uf) z r → r ∈ UF.roots (UF.parent uf)).
  { intros z r Hr. apply elem_of_roots. by eapply UFL.root_of_root. }
  pose proof (Hin _ _ Hrx) as Hx'. pose proof (Hin _ _ Hry) as Hy'.
  unfold UF.count_roots in Hc.
  destruct (UF.roots (UF.parent uf)) as [| r [| ? ?]]; try done.
  apply list_elem_of_singleton in Hx', Hy'. subst. by exists r.
Qed.

Lemma same_set_count_one uf :
  UF.wf uf → 0 < length (UF.parent uf) →
  (∀ x y, x < length (UF.parent uf) → y < length (UF.parent uf) →
     UF.same_set uf x y) →
  UF.count_roots uf = 1.
Proof.
  intros Hwf Hn Hall. pose proof (count_roots_pos uf Hwf Hn) as Hpos.
  unfold UF.count_roots in *.
  pose proof (NoDup_roots (UF.parent uf)) as Hnd.
  assert (Heq : ∀ q q', q ∈ UF.roots (UF.parent uf) → q' ∈ UF.roots (UF.parent uf) → q = q').
  { intros q q' Hq%elem_of_roots Hq'%elem_of_roots.
    eapply same_set_roots; [done.. |].
    apply Hall; by eapply lookup_lt_Some. }
  destruct (UF.roots (UF.parent uf)) as [| q [| q' l]]; [simpl in Hpos; lia | done |].
  exfalso. assert (q = q') as -> by (apply Heq; [by left | right; by left]).
  apply NoDup_cons in Hnd as [Hnin _]. apply Hnin. by left.
Qed.

(** ** The Kruskal scan *)

Lemma same_set_dec uf x y :
  UF.wf uf → x < length (UF.parent uf) → y < length (UF.parent uf) →
  UF.same_set uf x y ∨ ¬ UF.same_set uf x y.
Proof.
  intros [_ Hwf] Hx Hy.
  destruct (Hwf x Hx) as [rx Hrx]. destruct (Hwf y Hy) as [ry Hry].
  destruct (decide (rx = ry)) as [-> | Hne]; [left; by exists ry |].
  right. intros (r & Hxr & Hyr). apply Hne.
  rewrite (UFL.root_of_det _ _ _ _ Hrx Hxr). by eapply UFL.root_of_det.
Qed.

Lemma scan_inv_new n : scan_inv n (UF.new n) [] [].
Proof.
  split; [apply represents_new |]. split; [by intros x y ?%elem_of_nil |].
  split; [simpl; rewrite UFL.new_count; lia | by intros e ?%elem_of_nil].
Qed.

(** One round of the loop: the edge is skipped when its ends are already in
    one set, and accepted otherwise; the invariant holds afterwards. *)
Lemma scan_step n uf mst seen e rest :
  scan_inv n uf mst seen → Edge.a e < n → Edge.b e < n →
  (UF.same_set uf (Edge.a e) (Edge.b e) ∧
   ∃ uf2, scan_inv n uf2 mst (seen ++ [e]) ∧
     kruskal_scan n uf mst (e :: rest) = kruskal_scan n uf2 mst rest) ∨
  (¬ UF.same_set uf (Edge.a e) (Edge.b e) ∧
   ∃ uf3, scan_inv n uf3 (mst ++ [to_mst e]) (seen ++ [e]) ∧
     kruskal_scan n uf mst (e :: rest) =
       if decide (Z.of_nat (length (mst ++ [to_mst e])) = (Z.of_nat n - 1)%Z)
       then Some (uf3, mst ++ [to_mst e])
       else kruskal_scan n uf3 (mst ++ [to_mst e]) rest).
Proof.
  intros (Hrep & Hrange & Hcount & Hseen) Ha Hb.
  destruct Hrep as (Hwf & Hlen & Hc).
  destruct (UFL.find_total uf (Edge.a e)) as (uf1 & ra & Hfa & Hra & Hwf1 & Hs1 & Hrk1 & _);
    [done | lia |].
  destruct (UFL.find_total uf1 (Edge.b e)) as (uf2 & rb & Hfb & Hrb & Hwf2 & Hs2 & Hrk2 & _);
    [done | rewrite (proj1 Hs1); lia |].
  assert (Hs : UF.same_roots uf uf2) by (by eapply UFL.same_roots_trans).
  assert (Hrk : UF.rank uf2 = UF.rank uf) by congruence.
  assert (Hrb0 : UF.root_of (UF.parent uf) (Edge.b e) rb) by (by apply Hs1).
  assert (Hrep2 : represents n uf2 (map MstEdge.ends mst)).
  { by apply (represents_same_roots n uf). }
  assert (Hseen2 : ∀ e', e' ∈ seen → UF.same_set uf2 (Edge.a e') (Edge.b e')).
  { intros e' He'. rewrite UFL.same_roots_same_set by done. by apply Hseen. }
  assert (Hab : UF.same_set uf (Edge.a e) (Edge.b e) ↔ ra = rb).
  { split.
    - intros (r & Har & Hbr).
      rewrite (UFL.root_of_det _ _ _ _ Hra Har). by eapply UFL.root_of_det.
    - intros ->. by exists rb. }
  destruct (decide (ra = rb)) as [Heq | Hne].
  - left. split; [by apply Hab |]. exists uf2. split.
    + split; [done |]. split; [done |]. split.
      * by rewrite (UFL.same_roots_count uf uf2).
      * intros e' [He' | ->%list_elem_of_singleton]%elem_of_app; [by apply Hseen2 |].
        rewrite UFL.same_roots_same_set by done. by apply Hab.
    + simpl. rewrite Hfa. simpl. rewrite Hfb. simpl.
      rewrite decide_False; [done |]. intros Hn. by apply Hn.
  - right. split; [by rewrite Hab |].
    assert (Hlen2 : length (UF.parent uf2) = n) by (destruct Hs; congruence).
    destruct (UFL.union_total uf2 (Edge.a e) (Edge.b e)) as (uf3 & _ & _ & Hu & _);
      [done | lia | lia |].
    destruct (represents_union n uf2 _ _ _ uf3 Hrep2 Ha Hb Hrange Hu)
      as (Hrep3 & _ & Hdec).
    exists uf3. split.
    + split; [by rewrite map_app |]. split; [| split].
      * rewrite map_app. intros x y [Hin | [= -> ->]%list_elem_of_singleton]%elem_of_app;
          [by apply Hrange | done].
      * rewrite length_app. simpl.
        assert (S (UF.count_roots uf3) = UF.count_roots uf2).
        { apply Hdec. rewrite UFL.same_roots_same_set by done. by rewrite Hab. }
        rewrite (UFL.same_roots_count uf uf2) in * by done. lia.
      * assert (Hend : ∀ x y, x < n → y < n →
          connected (map MstEdge.ends mst ++ [(Edge.a e, Edge.b e)]) x y →
          UF.same_set uf3 x y).
        { intros x y Hx Hy. by apply Hrep3. }
        intros e' [He' | ->%list_elem_of_singleton]%elem_of_app.
        -- pose proof (Hseen2 _ He') as Hss.
           destruct (same_set_lt _ _ _ Hss) as [Hx Hy].
           apply Hend; [lia.. |].
           eapply connected_mono; [| apply Hrep2; [lia.. | exact Hss]].
           intros p Hp. apply elem_of_app. by left.
        -- apply Hend; [done.. |]. apply conn_edge, elem_of_app. right. by left.
    + simpl. rewrite Hfa. simpl. rewrite Hfb. simpl.
      rewrite decide_True by done. rewrite Hu. done.
Qed.

(** The scan returns.  It has seen a prefix [seen'] of the edges, the whole
    list unless it left by [break] with [n - 1] accepted edges, and it only
    appended to [mstEdges]. *)
Lemma scan_run n edges : ∀ uf mst seen,
  scan_inv n uf mst seen → edges_in_range n edges →
  ∃ uf' mst' seen' rest,
    kruskal_scan n uf mst edges = Some (uf', mst') ∧
    edges = seen' ++ rest ∧
    scan_inv n uf' mst' (seen ++ seen') ∧
    (rest = [] ∨ length mst' + 1 = n) ∧
    ∃ more, mst' = mst ++ more.
Proof.
  induction edges as [| e edges IH]; intros uf mst seen Hinv Hrange.
  { exists uf, mst, [], [].
    split; [done |]. split; [done |]. split; [by rewrite app_nil_r |].
    split; [by left |].
    exists []. by rewrite app_nil_r. }
  assert (Hrange' : edges_in_range n edges).
  { intros e' He'. apply Hrange. by right. }
  destruct (Hrange e) as [Ha Hb]; [by left |].
  destruct (scan_step n uf mst seen e edges Hinv Ha Hb)
    as [(_ & uf2 & Hinv2 & ->) | (_ & uf3 & Hinv3 & ->)].
  - destruct (IH uf2 mst _ Hinv2 Hrange') as (uf' & mst' & seen' & rest & Hk & -> & Hinv' & Hend & Hmore).
    exists uf', mst', (e :: seen'), rest. split; [done |]. split; [done |].
    split; [| done]. by rewrite <- (app_assoc seen) in Hinv'.
  - case_decide as Hbreak.
    + exists uf3, (mst ++ [to_mst e]), [e], edges. split; [done |]. split; [done |].
      split; [done |]. split; [right; lia | by eexists].
    + destruct (IH uf3 _ _ Hinv3 Hrange') as (uf' & mst' & seen' & rest & Hk & -> & Hinv' & Hend & more & ->).
      exists uf', ((mst ++ [to_mst e]) ++ more), (e :: seen'), rest.
      split; [done |]. split; [done |].
      split; [by rewrite <- (app_assoc seen) in Hinv' |]. split; [done |].
      exists ([to_mst e] ++ more). by rewrite app_assoc.
Qed.

(** The state in which the [i]-th accepted edge was met: [i] edges accepted,
    and every edge before it seen. *)
Lemma scan_nth n edges : ∀ uf mst seen uf' mst',
  scan_inv n uf mst seen → edges_in_range n edges →
  kruskal_scan n uf mst edges = Some (uf', mst') →
  ∀ i m, mst' !! i = Some m → length mst ≤ i →
  ∃ pre e suf U, edges = pre ++ e :: suf ∧ m = to_mst e ∧
    scan_inv n U (take i mst') (seen ++ pre).
Proof.
  induction edges as [| e edges IH]; intros uf mst seen uf' mst' Hinv Hrange Hk i m Hi Hle.
  { simpl in Hk. injection Hk as <- <-. apply lookup_lt_Some in Hi. lia. }
  assert (Hrange' : edges_in_range n edges).
  { intros e' He'. apply Hrange. by right. }
  destruct (Hrange e) as [Ha Hb]; [by left |].
  destruct (scan_step n uf mst seen e edges Hinv Ha Hb)
    as [(_ & uf2 & Hinv2 & Heq) | (_ & uf3 & Hinv3 & Heq)]; rewrite Heq in Hk.
  - destruct (IH uf2 mst _ uf' mst' Hinv2 Hrange' Hk i m Hi Hle)
      as (pre & e0 & suf & U & -> & -> & HU).
    exists (e :: pre), e0, suf, U. split; [done |]. split; [done |].
    by rewrite <- (app_assoc seen) in HU.
  - assert (Hpre : ∃ more, mst' = (mst ++ [to_mst e]) ++ more).
    { case_decide.
      - injection Hk as <- <-. exists []. by rewrite app_nil_r.
      - destruct (scan_run n edges uf3 _ _ Hinv3 Hrange')
          as (? & ? & ? & ? & Hk' & _ & _ & _ & Hmore).
        rewrite Hk in Hk'. injection Hk' as <- <-. done. }
    destruct Hpre as [more ->].
    destruct (decide (i = length mst)) as [-> | Hne].
    + exists [], e, edges, uf. split; [done |]. split.
      * rewrite <- app_assoc in Hi. rewrite lookup_app_r in Hi by lia.
        rewrite Nat.sub_diag in Hi. simpl in Hi. congruence.
      * rewrite app_nil_r. rewrite <- app_assoc. by rewrite take_app_length.
    + case_decide.
      * injection Hk as <- E. apply (f_equal length) in E.
        apply lookup_lt_Some in Hi.
        rewrite !length_app in E. rewrite !length_app in Hi. simpl in E, Hi. lia.
      * destruct (IH uf3 _ _ uf' _ Hinv3 Hrange' Hk i m Hi)
          as (pre & e0 & suf & U & -> & -> & HU).
        { rewrite length_app. simpl. lia. }
        exists (e :: pre), e0, suf, U. split; [done |]. split; [done |].
        by rewrite <- (app_assoc seen) in HU.
Qed.

(** On a complete graph the scan accepts [n - 1] edges and leaves one set. *)
Lemma kruskal_spanning n edges :
  1 ≤ n → edges_in_range n edges → complete n edges →
  ∃ uf mst, kruskal n edges = Some (uf, mst) ∧
    length mst + 1 = n ∧ UF.count_roots uf = 1 ∧
    represents n uf (map MstEdge.ends mst).
Proof.
  intros Hn Hrange Hcomplete.
  destruct (scan_run n edges (UF.new n) [] [] (scan_inv_new n) Hrange)
    as (uf & mst & seen & rest & Hk & -> & Hinv & Hend & _).
  simpl in Hinv. destruct Hinv as (Hrep & _ & Hcount & Hseen).
  exists uf, mst. split; [done |].
  assert (Hone : UF.count_roots uf = 1).
  { destruct Hend as [-> | Hlen]; [| lia].
    rewrite app_nil_r in Hcomplete.
    pose proof Hrep as (Hwf & Hlen & Hc).
    apply same_set_count_one; [done | lia |].
    assert (Hlt : ∀ x y, x < y → y < n → UF.same_set uf x y).
    { intros x y Hxy Hy. destruct (Hcomplete x y Hxy Hy) as (e & He & <- & <-).
      by apply Hseen. }
    intros x y Hx Hy. rewrite Hlen in Hx, Hy.
    destruct (Nat.lt_total x y) as [Hxy | [-> | Hxy]].
    - by apply Hlt.
    - apply same_set_refl; [done | lia].
    - apply same_set_sym. by apply Hlt. }
  split; [lia |]. by split.
Qed.

(** ** Minimality of the accepted edges *)

(** Adding the pairs of [l] to a represented partition removes at most one
    set per pair. *)
Lemma extend_represents n l : ∀ uf0 l0,
  represents n uf0 l0 → in_range n l0 → in_range n l →
  ∃ uf, represents n uf (l0 ++ l) ∧
    UF.count_roots uf0 ≤ UF.count_roots uf + length l.
Proof.
  induction l as [| [a b] l IH]; intros uf0 l0 Hrep Hr0 Hr.
  { exists uf0. rewrite app_nil_r. split; [done | simpl; lia]. }
  destruct (Hr a b) as [Ha Hb]; [by left |].
  pose proof Hrep as (Hwf & Hlen & _).
  destruct (UFL.union_total uf0 a b) as (uf1 & _ & _ & Hu & _); [done | lia | lia |].
  destruct (represents_union n uf0 l0 a b uf1 Hrep Ha Hb Hr0 Hu) as (Hrep1 & Hsame & Hdiff).
  destruct (IH uf1 (l0 ++ [(a, b)]) Hrep1) as (uf & Hrepf & Hcount).
  { intros x y [Hin | [= -> ->]%list_elem_of_singleton]%elem_of_app; [by apply Hr0 | done]. }
  { intros x y Hin. apply Hr. by right. }
  exists uf. split; [by rewrite <- app_assoc in Hrepf |].
  simpl. destruct (same_set_dec uf0 a b) as [Hs | Hs]; [done | lia | lia | |].
  - rewrite <- (Hsame Hs). lia.
  - pose proof (Hdiff Hs). lia.
Qed.

(** Pairs that lie inside the sets of [uf] generate a finer partition. *)
Lemma represents_refines n uf uf' l :
  represents n uf' l → in_range n l → UF.wf uf → length (UF.parent uf) = n →
  (∀ x y, (x, y) ∈ l → UF.same_set uf x y) →
  UF.count_roots uf ≤ UF.count_roots uf'.
Proof.
  intros (Hwf' & Hlen' & Hc') Hr Hwf Hlen Hin.
  apply count_refine; [done | congruence |].
  intros x y Hxy. destruct (same_set_lt _ _ _ Hxy) as [Hx Hy].
  apply Hc' in Hxy; [| lia..].
  destruct (connected_ind_equiv n (UF.same_set uf) l) with (x := x) (y := y)
    as [-> | (_ & _ & H')]; try done.
  - intros z Hz. apply same_set_refl; [done | lia].
  - apply same_set_sym.
  - apply same_set_trans.
  - intros u v Huv. destruct (Hr _ _ Huv). auto.
  - apply same_set_refl; [done | lia].
Qed.

(** Any part of a spanning tree is a forest: [k] of its edges leave at most
    [n - k] sets. *)
Lemma tree_part_count n edges tree (P : Edge.t → Prop) `{!∀ e, Decision (P e)} :
  edges_in_range n edges → spanning_tree n edges tree →
  ∃ uf, represents n uf (map Edge.ends (filter P tree)) ∧
    UF.count_roots uf + length (filter P tree) ≤ n.
Proof.
  intros Hrange (Hsub & Hlen & Hconn).
  assert (Hr : ∀ Q' `{!∀ e, Decision (Q' e)},
    in_range n (map Edge.ends (filter Q' tree))).
  { intros Q' ? x y (e & [= -> ->] & [_ He]%list_elem_of_filter)%list_elem_of_fmap.
    by apply Hrange, Hsub. }
  destruct (extend_represents n (map Edge.ends (filter P tree)) (UF.new n) [])
    as (uf & Hrep & _); [apply represents_new | by intros ? ? ?%elem_of_nil | apply Hr |].
  simpl in Hrep.
  destruct (extend_represents n (map Edge.ends (filter (λ e, ¬ P e) tree)) uf _ Hrep)
    as (uf2 & Hrep2 & Hcount); [apply Hr | apply Hr |].
  exists uf. split; [done |].
  assert (Hone : UF.count_roots uf2 = 1).
  { destruct Hrep2 as (Hwf2 & Hlen2 & Hc2).
    apply same_set_count_one; [done | lia |].
    intros x y Hx Hy. apply Hc2; [lia.. |].
    eapply connected_mono; [| apply Hconn; lia].
    intros p (e & -> & He)%list_elem_of_fmap.
    apply elem_of_app. destruct (decide (P e)).
    - left. apply list_elem_of_fmap. exists e. split; [done |].
      by apply list_elem_of_filter.
    - right. apply list_elem_of_fmap. exists e. split; [done |].
      by apply list_elem_of_filter. }
  pose proof (Permutation_length (filter_app_complement P tree)) as Hperm.
  rewrite length_app in Hperm. rewrite length_map in Hcount. lia.
Qed.

Lemma ascending_split pre e suf t :
  ascending (pre ++ e :: suf) → t ∈ suf →
  (Edge.distance e <= Edge.distance t)%Q.
Proof.
  unfold ascending. induction pre as [| x pre IH]; simpl; intros Hs Ht.
  - apply StronglySorted_inv in Hs as [_ Hall].
    rewrite List.Forall_forall in Hall. apply Hall. by apply list_elem_of_In.
  - apply StronglySorted_inv in Hs as [Hs _]. by apply IH.
Qed.

(** When the scan accepts its [i]-th edge (counting from 0), at most [i]
    edges of any spanning tree are strictly shorter than it. *)
Lemma accepted_light_count n edges tree uf mst i m :
  ascending edges → edges_in_range n edges → spanning_tree n edges tree →
  kruskal n edges = Some (uf, mst) → mst !! i = Some m →
  ∃ e, e ∈ edges ∧ m = to_mst e ∧
    length (filter (λ t, (Edge.distance t < Edge.distance e)%Q) tree) ≤ i.
Proof.
  intros Hasc Hrange Htree Hk Hi.
  destruct (scan_nth n edges _ _ _ _ _ (scan_inv_new n) Hrange Hk i m Hi)
    as (pre & e & suf & U & Hsplit & -> & HU); [simpl; lia |].
  exists e. split; [rewrite Hsplit; apply elem_of_app; right; by left |].
  split; [done |].
  destruct HU as (HrepU & _ & HcountU & HseenU). simpl in HseenU.
  destruct (tree_part_count n edges tree
    (λ t, (Edge.distance t < Edge.distance e)%Q) Hrange Htree) as (ufF & HrepF & HcountF).
  assert (Hle : UF.count_roots U ≤ UF.count_roots ufF).
  { destruct HrepU as (HwfU & HlenU & _).
    eapply represents_refines; [exact HrepF | | done | done |].
    - intros x y (t & [= -> ->] & [_ Ht]%list_elem_of_filter)%list_elem_of_fmap.
      by apply Hrange, (proj1 Htree).
    - intros x y (t & [= -> ->] & [Hlt Ht]%list_elem_of_filter)%list_elem_of_fmap.
      apply HseenU. apply (proj1 Htree) in Ht. rewrite Hsplit in Ht.
      apply elem_of_app in Ht as [Ht | [-> | Ht]%elem_of_cons]; [done | |].
      + by apply Qlt_irrefl in Hlt.
      + exfalso. eapply Qlt_not_le; [exact Hlt |].
        eapply ascending_split; [| exact Ht]. by rewrite <- Hsplit. }
  assert (Hlen : length (take i mst) = i).
  { rewrite length_take. apply lookup_lt_Some in Hi. lia. }
  lia.
Qed.

Lemma total_app l1 l2 : (total (l1 ++ l2) == total l1 + total l2)%Q.
Proof.
  unfold total. induction l1 as [| x l1 IH]; simpl; [lra |]. rewrite IH. lra.
Qed.

Lemma filter_short_witness (P : Q → Prop) `{!∀ x, Decision (P x)} (l : list Q) :
  length (filter P l) < length l → ∃ x, x ∈ l ∧ ¬ P x.
Proof.
  induction l as [| x l IH]; simpl; [lia |]. rewrite filter_cons.
  destruct (decide (P x)); simpl; intros Hlen.
  - destruct IH as (y & Hy & HPy); [lia |]. exists y. split; [by right | done].
  - exists x. split; [by left | done].
Qed.

(** If, for every [i], fewer than [i + 1] of the [ts] are below the [i]-th
    of the [ks], then the [ks] sum to no more than the [ts]. *)
Lemma dominate_sum (ks : list Q) : ∀ ts : list Q,
  length ks = length ts →
  (∀ i k, ks !! i = Some k → length (filter (λ t, (t < k)%Q) ts) ≤ i) →
  (total ks <= total ts)%Q.
Proof.
  induction ks as [| k ks IH] using rev_ind; intros ts Hlen Hdom.
  { destruct ts; [| done]. simpl. lra. }
  rewrite length_app in Hlen. simpl in Hlen.
  destruct (filter_short_witness (λ t, (t < k)%Q) ts) as (t & Ht & Hnlt).
  { pose proof (Hdom (length ks) k) as Hk.
    rewrite lookup_app_r, Nat.sub_diag in Hk by lia. specialize (Hk eq_refl). lia. }
  apply list_elem_of_split in Ht as (t1 & t2 & ->).
  rewrite length_app in Hlen. simpl in Hlen.
  assert (IH' : (total ks <= total (t1 ++ t2))%Q).
  { apply IH; [rewrite length_app; lia |].
    intros i k' Hi.
    pose proof (Hdom i k') as Hd. rewrite lookup_app_l in Hd by (by eapply lookup_lt_Some).
    specialize (Hd Hi). rewrite filter_app, length_app in *.
    rewrite filter_cons in Hd. destruct (decide (k' > t)%Q); simpl in Hd; lia. }
  rewrite !total_app in *. simpl. apply Qnot_lt_le in Hnlt. lra.
Qed.

Lemma filter_map_length {A : Type} (f : A → Q) (k : Q) (l : list A) :
  length (filter (λ t, (t < k)%Q) (map f l)) =
  length (filter (λ x, (f x < k)%Q) l).
Proof.
  induction l as [| x l IH]; [done |]. simpl. rewrite !filter_cons.
  destruct (decide (f x < k)%Q); simpl; by rewrite IH.
Qed.

(** The accepted edges weigh no more than any spanning tree drawn from the
    same ascending edge list.  [w] reads the distance of an accepted edge,
    which [mstEdges] does not store. *)
Lemma kruskal_minimal n edges tree uf mst (w : MstEdge.t → Q) :
  ascending edges → edges_in_range n edges → spanning_tree n edges tree →
  (∀ e, e ∈ edges → w (to_mst e) = Edge.distance e) →
  kruskal n edges = Some (uf, mst) → length mst + 1 = n →
  (total (map w mst) <= total (map Edge.distance tree))%Q.
Proof.
  intros Hasc Hrange Htree Hw Hk Hlen.
  apply dominate_sum.
  { rewrite !length_map. destruct Htree as (_ & Hl & _). lia. }
  intros i k Hi.
  apply (list_lookup_fmap_Some_1 w mst) in Hi as (m & -> & Hm).
  destruct (accepted_light_count n edges tree uf mst i m Hasc Hrange Htree Hk Hm)
    as (e & He & -> & Hcount).
  rewrite (Hw e He). by rewrite filter_map_length.
Qed.

(** ** The boundary sampler *)

(** For an integer [s], the loop test [s < x] is [s < ceil x]. *)
Lemma loop_test (x : Q) (s : Z) : (inject_Z s < x)%Q ↔ (s < Qceiling x)%Z.
Proof.
  split.
  - intros Hs. rewrite Zlt_Qlt. eapply Qlt_le_trans; [exact Hs | apply Qle_ceiling].
  - intros Hs. eapply Qle_lt_trans; [| apply Qceiling_lt]. rewrite <- Zle_Qle. lia.
Qed.

(** With fuel for the rounds that remain, the loop entered at [s] visits
    [s, s + 1, ..., ceil x - 1] and leaves by its test. *)
Lemma edge_loop_fuel a b target len : ∀ fuel s,
  (Qceiling (per_edge target len) - s ≤ Z.of_nat fuel)%Z →
  edge_loop fuel s a b target len =
    map (interpolate a b target len)
      (seqZ s (Qceiling (per_edge target len) - s)).
Proof.
  induction fuel as [| fuel IH]; intros s Hfuel; simpl.
  { by rewrite seqZ_nil by lia. }
  destruct (Qlt_le_dec (inject_Z s) (per_edge target len)) as [Hlt | Hge].
  - apply loop_test in Hlt. rewrite seqZ_cons by lia. simpl. f_equal.
    rewrite IH by lia. do 2 f_equal; lia.
  - rewrite seqZ_nil; [done |].
    destruct (decide (s < Qceiling (per_edge target len))%Z) as [Hs | Hs]; [| lia].
    apply loop_test in Hs. exfalso. by eapply Qlt_not_le.
Qed.

Lemma edge_samples_seqZ a b target len :
  edge_samples a b target len =
    map (interpolate a b target len)
      (seqZ 1 (Qceiling (per_edge target len) - 1)).
Proof. unfold edge_samples. apply edge_loop_fuel. lia. Qed.

Lemma edge_samples_length a b target len :
  length (edge_samples a b target len) =
    Z.to_nat (Qceiling (per_edge target len) - 1).
Proof. by rewrite edge_samples_seqZ, length_map, length_seqZ. Qed.





(** ** The pairwise connector *)

Section Connector.
Context {T : Turf}.

Lemma scanned_nil best : scanned [] best best.
Proof. left. split; [done |]. by intros p q dq ?%elem_of_nil. Qed.

Lemma scanned_one best p q dq :
  turf_distance p q = Ok dq → scanned [(p, q)] best (better best p q dq).
Proof.
  intros Hd. unfold better. destruct best as [cur |].
  - destruct (Qlt_le_dec dq (d cur)) as [Hlt | Hge].
    + right. exists [], p, q, [], dq. repeat split; try done.
      all: by intros ? ? ? ?%elem_of_nil.
    + left. split; [done |].
      intros p' q' d' [= -> ->]%list_elem_of_singleton Hd'. congruence.
  - right. exists [], p, q, [], dq. repeat split; try done.
    all: by intros ? ? ? ?%elem_of_nil.
Qed.

Lemma scanned_app l1 l2 best best1 best2 :
  scanned l1 best best1 → scanned l2 best1 best2 → scanned (l1 ++ l2) best best2.
Proof.
  intros [[-> Hall1] | (m1 & p1 & q1 & m2 & d1 & -> & -> & Hd1 & Hb1 & Hlt1 & Hle1)]
         [[-> Hall2] | (k1 & p2 & q2 & k2 & d2 & -> & -> & Hd2 & Hb2 & Hlt2 & Hle2)].
  - left. split; [done |].
    intros p q dq [Hin | Hin]%elem_of_app Hd; [by eapply Hall1 | by eapply Hall2].
  - right. exists (l1 ++ k1), p2, q2, k2, d2.
    split; [by rewrite <- app_assoc |]. split; [done |]. split; [done |].
    split; [done |]. split; [| done].
    intros p' q' d' [Hin | Hin]%elem_of_app Hd'; [| eauto].
    specialize (Hall1 _ _ _ Hin Hd'). destruct best as [cur |]; [lra | done].
  - right. exists m1, p1, q1, (m2 ++ l2), d1.
    split; [by rewrite <- app_assoc |]. split; [done |]. split; [done |].
    split; [done |]. split; [done |].
    intros p' q' d' [Hin | Hin]%elem_of_app Hd'; [eauto |].
    apply (Hall2 _ _ _ Hin Hd').
  - simpl in Hb2. right. exists ((m1 ++ (p1, q1) :: m2) ++ k1), p2, q2, k2, d2.
    split; [by rewrite <- !app_assoc |]. split; [done |]. split; [done |].
    split; [destruct best as [cur |]; [lra | done] |]. split; [| done].
    intros p' q' d' [[Hin | [[= -> ->] | Hin]%elem_of_cons]%elem_of_app | Hin]%elem_of_app Hd'.
    + specialize (Hlt1 _ _ _ Hin Hd'). lra.
    + assert (d' = d1) as -> by congruence. done.
    + specialize (Hle1 _ _ _ Hin Hd'). lra.
    + eauto.
Qed.

Lemma scan_pb_spec p : ∀ samplesB best,
  distance_defined (map (λ q, (p, q)) samplesB) →
  ∃ best', scan_pb p samplesB best = Ok best' ∧
    scanned (map (λ q, (p, q)) samplesB) best best'.
Proof.
  induction samplesB as [| q rest IH]; intros best Hdef.
  { exists best. split; [done | apply scanned_nil]. }
  destruct (Hdef p q) as [dq Hdq]; [by left |].
  destruct (IH (better best p q dq)) as (best' & Hscan & Hbest').
  { intros p' q' Hin. apply Hdef. by right. }
  exists best'. split.
  - simpl. rewrite Hdq. simpl. done.
  - apply (scanned_app [(p, q)] _ _ (better best p q dq)); [by apply scanned_one | done].
Qed.

Lemma scan_pa_spec samplesB : ∀ samplesA best,
  distance_defined (sample_pairs samplesA samplesB) →
  ∃ best', scan_pa samplesA samplesB best = Ok best' ∧
    scanned (sample_pairs samplesA samplesB) best best'.
Proof.
  induction samplesA as [| p rest IH]; intros best Hdef.
  { exists best. split; [done | apply scanned_nil]. }
  destruct (scan_pb_spec p samplesB best) as (best1 & Hscan1 & Hbest1).
  { intros p' q' Hin. apply Hdef. simpl. apply elem_of_app. by left. }
  destruct (IH best1) as (best' & Hscan & Hbest').
  { intros p' q' Hin. apply Hdef. simpl. apply elem_of_app. by right. }
  exists best'. split.
  - simpl. rewrite Hscan1. simpl. done.
  - simpl. by eapply scanned_app.
Qed.

Lemma elem_of_sample_pairs samplesA samplesB p q :
  (p, q) ∈ sample_pairs samplesA samplesB ↔ p ∈ samplesA ∧ q ∈ samplesB.
Proof.
  unfold sample_pairs. rewrite list_elem_of_In, in_flat_map. split.
  - intros (p' & Hp' & Hin). apply in_map_iff in Hin as (q' & [= -> ->] & Hq').
    split; by apply list_elem_of_In.
  - intros [Hp Hq]. exists p. split; [by apply list_elem_of_In |].
    apply in_map_iff. exists q. split; [done | by apply list_elem_of_In].
Qed.

Lemma sample_pairs_nil_r samplesA : sample_pairs samplesA [] = [].
Proof. unfold sample_pairs. by induction samplesA. Qed.

End Connector.

(** ** The complete graph *)

Lemma elem_of_index_pairs n i j : (i, j) ∈ index_pairs n ↔ i < j ∧ j < n.
Proof.
  unfold index_pairs. rewrite list_elem_of_In, in_flat_map. split.
  - intros (i' & Hi' & Hin). apply in_map_iff in Hin as (j' & [= -> ->] & Hj').
    apply in_seq in Hi', Hj'. lia.
  - intros [Hij Hj]. exists i. split; [apply in_seq; lia |].
    apply in_map_iff. exists j. split; [done |]. apply in_seq. lia.
Qed.

Lemma NoDup_index_pairs n : NoDup (index_pairs n).
Proof.
  unfold index_pairs.
  assert (Hgen : ∀ l : list nat, NoDup l →
    NoDup (flat_map (λ i, map (λ j, (i, j)) (seq (S i) (n - S i))) l)).
  { induction 1 as [| i l Hi Hnd IH]; simpl; [constructor |].
    apply NoDup_app. split; [| split; [| done]].
    - apply (NoDup_fmap_2_strong (λ j, (i, j))); [| apply NoDup_seq].
      by intros ? ? _ _ [= ->].
    - intros [i' j'] Hin1 Hin2.
      apply list_elem_of_In, in_map_iff in Hin1 as (? & [= -> ->] & _).
      apply list_elem_of_In, in_flat_map in Hin2 as (i'' & Hi'' & Hin2).
      apply in_map_iff in Hin2 as (? & [= -> ->] & _).
      by apply Hi, list_elem_of_In. }
  apply Hgen, NoDup_seq.
Qed.

(** [C(n, 2)] pairs: twice their number is [n (n - 1)]. *)
Lemma length_index_pairs n : 2 * length (index_pairs n) = n * (n - 1).
Proof.
  unfold index_pairs.
  assert (Hgen : ∀ m k, k + m = n →
    2 * length (flat_map (λ i, map (λ j, (i, j)) (seq (S i) (n - S i))) (seq k m))
      = m * (m - 1)).
  { induction m as [| m IH]; intros k Hk; [done |].
    simpl. rewrite length_app, length_map, length_seq.
    specialize (IH (S k) ltac:(lia)).
    replace (n - S k) with m by lia. nia. }
  apply Hgen. lia.
Qed.

Lemma for_each_spec {A B : Type} (f : A → result B) (l : list A) (ys : list B) :
  for_each f l = Ok ys → Forall2 (λ x y, f x = Ok y) l ys.
Proof.
  revert ys. induction l as [| x l IH]; intros ys; simpl.
  - intros [= <-]. constructor.
  - destruct (f x) as [y | msg] eqn:Hx; simpl; [| done].
    destruct (for_each f l) as [ys' | msg] eqn:Hl; simpl; [| done].
    intros [= <-]. constructor; [done | by apply IH].
Qed.

Section Graph.
Context {T : Turf}.

Lemma make_edge_spec polys i j e :
  make_edge polys (i, j) = Ok e →
  Edge.a e = i ∧ Edge.b e = j ∧ edge_of_pair polys e.
Proof.
  unfold make_edge, edge_of_pair. simpl.
  destruct (polys !! i) as [pi |] eqn:Hi; [| done].
  destruct (polys !! j) as [pj |] eqn:Hj; [| done].
  destruct (shortestSegmentBetween pi pj) as [seg | msg] eqn:Hseg; simpl; [| done].
  intros [= <-]. simpl. split; [done |]. split; [done |].
  exists pi, pj. by rewrite Hi, Hj.
Qed.

Lemma build_edges_spec polys unsorted :
  build_edges polys = Ok unsorted →
  map Edge.ends unsorted = index_pairs (length polys) ∧
  ∀ e, e ∈ unsorted → edge_of_pair polys e.
Proof.
  unfold build_edges. intros Hall%for_each_spec.
  induction Hall as [| [i j] e l es He Hall [IH1 IH2]]; [by split; [| intros ? ?%elem_of_nil] |].
  apply make_edge_spec in He as (Ha & Hb & He).
  split.
  - simpl. rewrite IH1. unfold Edge.ends. by rewrite Ha, Hb.
  - intros e' [-> | He']%elem_of_cons; auto.
Qed.

End Graph.

(** *** The sort *)

Lemma by_distance_le x y :
  Qle_bool (by_distance x y) 0 = true ↔ (Edge.distance x <= Edge.distance y)%Q.
Proof. rewrite Qle_bool_iff. unfold by_distance. split; intros; lra. Qed.

Lemma sort_insert_perm x l : sort_insert x l ≡ₚ x :: l.
Proof.
  induction l as [| y l IH]; simpl; [done |].
  destruct (Qle_bool (by_distance x y) 0); [done |].
  rewrite IH. apply Permutation_swap.
Qed.

Lemma sort_perm l : sort l ≡ₚ l.
Proof.
  induction l as [| x l IH]; simpl; [done |].
  by rewrite sort_insert_perm, IH.
Qed.

Lemma sort_insert_ascending x l : ascending l → ascending (sort_insert x l).
Proof.
  unfold ascending. induction l as [| y l IH]; simpl; intros Hs.
  { repeat constructor. }
  apply StronglySorted_inv in Hs as [Hs Hall].
  destruct (Qle_bool (by_distance x y) 0) eqn:Hxy.
  - apply by_distance_le in Hxy. constructor; [by constructor |].
    constructor; [done |].
    eapply List.Forall_impl; [| exact Hall]. simpl. intros z Hz. lra.
  - constructor; [by apply IH |].
    assert (Hyx : (Edge.distance y <= Edge.distance x)%Q).
    { destruct (Qlt_le_dec (Edge.distance y) (Edge.distance x)) as [Hlt | Hle]; [lra |].
      apply by_distance_le in Hle. congruence. }
    apply List.Forall_forall. intros z Hz.
    apply list_elem_of_In in Hz. rewrite sort_insert_perm in Hz.
    apply elem_of_cons in Hz as [-> | Hz]; [done |].
    rewrite List.Forall_forall in Hall. by apply Hall, list_elem_of_In.
Qed.

Lemma sort_ascending l : ascending (sort l).
Proof.
  induction l as [| x l IH]; simpl; [constructor | by apply sort_insert_ascending].
Qed.

Lemma elem_of_sort l e : e ∈ sort l ↔ e ∈ l.
Proof. by rewrite sort_perm. Qed.

(** ** The whole operation *)

Section Merge.
Context {T : Turf}.

(** What the built and sorted edge list is. *)
Lemma built_edges_facts polys unsorted :
  build_edges polys = Ok unsorted →
  map Edge.ends (sort unsorted) ≡ₚ index_pairs (length polys) ∧
  ascending (sort unsorted) ∧
  edges_in_range (length polys) (sort unsorted) ∧
  complete (length polys) (sort unsorted) ∧
  ∀ e, e ∈ sort unsorted → Edge.a e < Edge.b e ∧ edge_of_pair polys e.
Proof.
  intros [Hends Hpair]%build_edges_spec.
  assert (Hperm : map Edge.ends (sort unsorted) ≡ₚ index_pairs (length polys)).
  { rewrite <- Hends. apply Permutation_map, sort_perm. }
  assert (Hin : ∀ e, e ∈ sort unsorted → Edge.a e < Edge.b e ∧ Edge.b e < length polys).
  { intros e He. apply elem_of_index_pairs. rewrite <- Hperm.
    apply list_elem_of_fmap. by exists e. }
  split; [done |]. split; [apply sort_ascending |]. split; [| split].
  - intros e He. destruct (Hin e He). lia.
  - intros i j Hij Hj.
    assert (Hp : (i, j) ∈ map Edge.ends (sort unsorted)).
    { rewrite Hperm. by apply elem_of_index_pairs. }
    apply list_elem_of_fmap in Hp as (e & [= -> ->] & He). by exists e.
  - intros e He. split; [by apply Hin |]. by apply Hpair, elem_of_sort.
Qed.




(** With two shapes or more, once the edges are built the scan accepts
    [n - 1] edges, and the operation completes as the union of the pieces
    does. *)
Lemma merge_stages features options unsorted :
  2 ≤ length features →
  build_edges (map clone features) = Ok unsorted →
  ∃ uf mst,
    kruskal (length features) (sort unsorted) = Some (uf, mst) ∧
    length mst + 1 = length features ∧
    UF.count_roots uf = 1 ∧
    represents (length features) uf (map MstEdge.ends mst) ∧
    let width :=
      corridorWidthKm (bboxDiagonalKm (turf_bbox (map clone features))) options in
    mergePolygonsWithShortestCorridors features options =
      Some (accumulated ←
              union_all (map Some (map clone features) ++ corridors mst width);
            Ok {| output := accumulated;
                  debug := {| pairs := sort unsorted; mstEdges := mst;
                              corridorPolygons := corridors mst width |} |}).
Proof.
  intros Hn Hbuild.
  pose proof (built_edges_facts _ _ Hbuild) as (_ & _ & Hrange & Hcomplete & _).
  rewrite length_map in Hrange, Hcomplete.
  destruct (kruskal_spanning (length features) (sort unsorted))
    as (uf & mst & Hk & Hlen & Hone & Hrep); [lia | done | done |].
  exists uf, mst.
  split; [done |]. split; [done |]. split; [done |]. split; [done |].
  unfold mergePolygonsWithShortestCorridors.
  assert (Hl : length (map clone features) = length features) by apply length_map.
  destruct (map clone features) as [| first [| second rest]] eqn:Hpolys;
    [simpl in Hl; lia.. |].
  cbv zeta. rewrite Hbuild, Hl, Hk. done.
Qed.

(** A throw while the edges are built leaves the operation. *)
Lemma merge_build_throws features options msg :
  length features ≠ 1 →
  build_edges (map clone features) = Throw msg →
  mergePolygonsWithShortestCorridors features options = Some (Throw msg).
Proof.
  intros Hn Hbuild. unfold mergePolygonsWithShortestCorridors.
  assert (Hl : length (map clone features) = length features) by apply length_map.
  destruct (map clone features) as [| first [| second rest]] eqn:Hpolys.
  - done.
  - simpl in Hl. lia.
  - cbv zeta. by rewrite Hbuild.
Qed.

(** The corridors of a returned result. *)
Lemma merge_inv features options r :
  mergePolygonsWithShortestCorridors features options = Some (Ok r) →
  corridorPolygons (debug r) =
    corridors (mstEdges (debug r))
      (corridorWidthKm (bboxDiagonalKm (turf_bbox (map clone features))) options).
Proof.
  unfold mergePolygonsWithShortestCorridors.
  destruct (map clone features) as [| first [| second rest]].
  - simpl. done.
  - by intros [= <-].
  - destruct (build_edges _) as [unsorted | msg]; [| done].
    destruct (kruskal _ _) as [[uf mst] |]; simpl; [| done].
    destruct (union_all _) as [acc | msg]; simpl; [| done].
    by intros [= <-].
Qed.

(** How a returned result was computed. *)
Lemma merge_inv_full features options r :
  mergePolygonsWithShortestCorridors features options = Some (Ok r) →
  (length features = 1 ∧
   pairs (debug r) = [] ∧ mstEdges (debug r) = [] ∧ corridorPolygons (debug r) = []) ∨
  (length features ≠ 1 ∧
   ∃ unsorted uf,
     build_edges (map clone features) = Ok unsorted ∧
     pairs (debug r) = sort unsorted ∧
     kruskal (length features) (sort unsorted) = Some (uf, mstEdges (debug r)) ∧
     union_all (map Some (map clone features) ++ corridorPolygons (debug r)) =
       Ok (output r)).
Proof.
  unfold mergePolygonsWithShortestCorridors.
  assert (Hl : length (map clone features) = length features) by apply length_map.
  destruct (map clone features) as [| first [| second rest]] eqn:Hpolys.
  - simpl. done.
  - intros [= <-]. left. by simpl in Hl.
  - destruct (build_edges _) as [unsorted | msg] eqn:Hbuild; [| done].
    cbv zeta. rewrite Hl.
    destruct (kruskal _ _) as [[uf mst] |] eqn:Hk; simpl; [| done].
    destruct (union_all _) as [acc | msg] eqn:Hu; simpl; [| done].
    intros [= <-]. right. split; [simpl in Hl; lia |].
    exists unsorted, uf. by simpl.
Qed.

(** The operation always completes in the model: the scan has its fuel. *)
Lemma merge_completes features options :
  mergePolygonsWithShortestCorridors features options ≠ None.
Proof.
  destruct (decide (2 ≤ length features)) as [Hn | Hn].
  - destruct (build_edges (map clone features)) as [unsorted | msg] eqn:Hbuild.
    + destruct (merge_stages features options unsorted Hn Hbuild)
        as (uf & mst & _ & _ & _ & _ & Hmerge).
      simpl in Hmerge. by rewrite Hmerge.
    + by rewrite (merge_build_throws features options msg) by (done || lia).
  - destruct features as [| f [| g rest]]; [done | done | simpl in Hn; lia].
Qed.

End Merge.

(** In the planar instance [turf.distance] always returns. *)
Lemma planar_distance_defined (l : list (Position * Position)) :
  distance_defined (T := Planar.turf) l.
Proof. intros p q _. by eexists. Qed.

(** The planar graph builder returns on the three squares. *)
Lemma three_squares_built :
  build_edges (T := Planar.turf) (map clone Planar.three_squares) =
    Ok Planar.three_squares_edges.
Proof. by vm_compute. Qed.

(** The planar run on the three squares returns. *)
Lemma three_squares_merge :
  ∃ r, mergePolygonsWithShortestCorridors (T := Planar.turf)
         Planar.three_squares None = Some (Ok r).
Proof.
  destruct (merge_stages (T := Planar.turf) Planar.three_squares None _
              ltac:(simpl; lia) three_squares_built)
    as (uf & mst & Hk & _ & _ & _ & Hmerge).
  vm_compute in Hk. injection Hk as <- <-.
  eexists. rewrite Hmerge. by vm_compute.
Qed.

(** The accepted edges are edges of the scanned list. *)
Lemma accepted_from_list n edges uf mst :
  edges_in_range n edges →
  kruskal n edges = Some (uf, mst) →
  ∀ i m, mst !! i = Some m → ∃ e, e ∈ edges ∧ m = to_mst e.
Proof.
  intros Hrange Hk i m Hi.
  destruct (scan_nth _ _ _ _ _ _ _ (scan_inv_new _) Hrange Hk i m Hi)
    as (pre & e & suf & _ & Hsplit & -> & _); [simpl; lia |].
  exists e. split; [| done]. rewrite Hsplit. apply elem_of_app. right. by left.
Qed.

(** * The claims *)

(** C1: for every input of n ≥ 2 shapes on which the edges are built, the
    Kruskal step accepts exactly n − 1 edges of the sorted list, and these
    are the [mstEdges] of the debug record of every result the operation
    returns.  The disjoint-set structure after the scan has exactly the sets
    the accepted edges generate: two indices are in one set exactly when the
    accepted edges join them.  After the n − 1 edges that is one set: one
    root is left, every two indices are joined by accepted edges, and [find]
    gives them the same representative. *)
Theorem C1_kruskal_accepts_n_minus_1 {T : Turf}
    (features : list Feature) (unsorted : list Edge.t) :
  2 ≤ length features →
  build_edges (map clone features) = Ok unsorted →
  ∃ uf mst,
    kruskal (length features) (sort unsorted) = Some (uf, mst) ∧
    length mst = length features - 1 ∧
    (∀ m, m ∈ mst → ∃ e, e ∈ sort unsorted ∧ m = to_mst e) ∧
    UF.wf uf ∧ length (UF.parent uf) = length features ∧
    (∀ x y, x < length features → y < length features →
       UF.same_set uf x y ↔ connected (map MstEdge.ends mst) x y) ∧
    UF.count_roots uf = 1 ∧
    (∀ x y, x < length features → y < length features →
       connected (map MstEdge.ends mst) x y ∧
       ∃ root, UF.rep uf x = Some root ∧ UF.rep uf y = Some root) ∧
    ∀ options r,
      mergePolygonsWithShortestCorridors features options = Some (Ok r) →
      mstEdges (debug r) = mst.
Proof.
  intros Hn Hbuild.
  destruct (merge_stages features None unsorted Hn Hbuild)
    as (uf & mst & Hk & Hlen & Hone & Hrep & _).
  pose proof (built_edges_facts _ _ Hbuild) as (_ & _ & Hrange & _ & _).
  rewrite length_map in Hrange.
  pose proof Hrep as (Hwf & Hl & Hc).
  exists uf, mst. split; [done |]. split; [lia |].
  split; [| split; [done | split; [done | split; [done | split; [done | split]]]]].
  - intros m [i Hi]%list_elem_of_lookup_1.
    by apply (accepted_from_list _ _ _ _ Hrange Hk i).
  - intros x y Hx Hy.
    assert (Hsame : UF.same_set uf x y) by (apply count_one_same_set; (done || lia)).
    split; [by apply Hc |].
    destruct Hsame as (root & Hxr & Hyr).
    exists root. split; apply UFL.rep_root; (done || lia).
  - intros options r Hmerge.
    destruct (merge_stages features options unsorted Hn Hbuild)
      as (uf' & mst' & Hk' & _ & _ & _ & Hm).
    rewrite Hk in Hk'. injection Hk' as <- <-.
    simpl in Hm. rewrite Hm in Hmerge.
    destruct (union_all _) as [acc | msg]; simpl in Hmerge; [| done].
    by injection Hmerge as <-.
Qed.

Lemma C1_witness :
  ∃ uf mst r,
    kruskal 3 (sort Planar.three_squares_edges) = Some (uf, mst) ∧
    length mst = 2 ∧
    connected (map MstEdge.ends mst) 0 2 ∧
    mergePolygonsWithShortestCorridors (T := Planar.turf)
      Planar.three_squares None = Some (Ok r) ∧
    mstEdges (debug r) = mst.
Proof.
  destruct (C1_kruskal_accepts_n_minus_1 (T := Planar.turf) Planar.three_squares
              Planar.three_squares_edges)
    as (uf & mst & Hk & Hlen & _ & _ & _ & _ & _ & Hconn & Hres).
  - simpl. lia.
  - exact three_squares_built.
  - destruct three_squares_merge as (r & Hmerge).
    exists uf, mst, r. split; [exact Hk |]. split; [exact Hlen |].
    split; [apply Hconn; simpl; lia |]. split; [exact Hmerge |].
    exact (Hres None r Hmerge).
Defined.

Lemma selected_edges (edges : list Edge.t) (mst : list MstEdge.t) :
  (∀ i m, mst !! i = Some m → ∃ e, e ∈ edges ∧ m = to_mst e) →
  ∃ selected, map to_mst selected = mst ∧ ∀ e, e ∈ selected → e ∈ edges.
Proof.
  induction mst as [| m mst IH]; intros Hall.
  { exists []. split; [done | by intros ? ?%elem_of_nil]. }
  destruct (Hall 0 m eq_refl) as (e & He & ->).
  destruct IH as (sel & <- & Hsel); [intros i m' Hi; by apply (Hall (S i)) |].
  exists (e :: sel). split; [done |].
  intros e' [-> | He']%elem_of_cons; auto.
Qed.

(** The edges (0, 1) and (0, 2) of the three squares: a spanning tree other
    than the one the scan selects. *)
Lemma three_squares_other_tree :
  spanning_tree 3 (sort Planar.three_squares_edges)
    (drop 1 (sort Planar.three_squares_edges)) ∧
  map Edge.ends (drop 1 (sort Planar.three_squares_edges)) = [(0, 1); (0, 2)].
Proof.
  split; [| by vm_compute].
  split; [| split; [by vm_compute |]].
  - intros e He. eapply elem_of_sublist; [exact He | apply sublist_drop].
  - assert (Hends : map Edge.ends (drop 1 (sort Planar.three_squares_edges))
                    = [(0, 1); (0, 2)]) by (by vm_compute).
    rewrite Hends.
    assert (H01 : connected [(0, 1); (0, 2)] 0 1) by (apply conn_edge; by left).
    assert (H02 : connected [(0, 1); (0, 2)] 0 2) by (apply conn_edge; right; by left).
    intros x y Hx Hy.
    assert (H0 : ∀ z, z < 3 → connected [(0, 1); (0, 2)] 0 z).
    { intros z Hz. destruct z as [| [| [| z]]]; [apply conn_refl | done | done | lia]. }
    eapply conn_trans; [apply conn_sym, H0 | apply H0]; done.
Qed.

(** C2: for every input of n ≥ 2 shapes on which the edges are built, the
    edges the Kruskal step selects are a spanning tree drawn from the
    computed edge list, and their total distance is at most the total
    distance of every spanning tree drawn from that list.  The distance of a
    selected edge is the length of its segment, which is what the edge list
    records.  The list and the selected edges are the [pairs] and the
    [mstEdges] of every result the operation returns. *)
Theorem C2_mst_minimal {T : Turf}
    (features : list Feature) (unsorted : list Edge.t) :
  2 ≤ length features →
  build_edges (map clone features) = Ok unsorted →
  ∃ uf mst selected,
    kruskal (length features) (sort unsorted) = Some (uf, mst) ∧
    map to_mst selected = mst ∧
    spanning_tree (length features) (sort unsorted) selected ∧
    map (λ m, turf_length (MstEdge.seg m)) mst = map Edge.distance selected ∧
    (∀ tree, spanning_tree (length features) (sort unsorted) tree →
       (total (map (λ m, turf_length (MstEdge.seg m)) mst)
          <= total (map Edge.distance tree))%Q) ∧
    ∀ options r,
      mergePolygonsWithShortestCorridors features options = Some (Ok r) →
      pairs (debug r) = sort unsorted ∧ mstEdges (debug r) = mst.
Proof.
  intros Hn Hbuild.
  destruct (merge_stages features None unsorted Hn Hbuild)
    as (uf & mst & Hk & Hlen & Hone & Hrep & _).
  pose proof (built_edges_facts _ _ Hbuild) as (_ & Hasc & Hrange & _ & Hpair).
  rewrite length_map in Hrange.
  destruct (selected_edges (sort unsorted) mst) as (selected & Hsel & Hsub).
  { by apply (accepted_from_list _ _ _ _ Hrange Hk). }
  exists uf, mst, selected.
  split; [done |]. split; [done |]. split; [| split; [| split]].
  - split; [done |]. split.
    + rewrite <- Hsel, length_map in Hlen. done.
    + intros x y Hx Hy. destruct Hrep as (Hwf & Hl & Hc).
      assert (Hends : map Edge.ends selected = map MstEdge.ends mst).
      { rewrite <- Hsel. rewrite map_map. done. }
      rewrite Hends. apply Hc; [done.. |].
      apply count_one_same_set; (done || lia).
  - rewrite <- Hsel, map_map. apply map_ext_in. intros e He%list_elem_of_In.
    simpl. destruct (Hpair e (Hsub e He)) as (_ & ? & ? & _ & _ & _ & Hd). done.
  - intros tree Htree.
    apply (kruskal_minimal (length features) (sort unsorted) tree uf mst); try done.
    intros e He. simpl. destruct (Hpair e He) as (_ & ? & ? & _ & _ & _ & Hd). done.
  - intros options r Hmerge.
    destruct (merge_stages features options unsorted Hn Hbuild)
      as (uf' & mst' & Hk' & _ & _ & _ & Hm).
    rewrite Hk in Hk'. injection Hk' as <- <-.
    simpl in Hm. rewrite Hm in Hmerge.
    destruct (union_all _) as [acc | msg]; simpl in Hmerge; [| done].
    by injection Hmerge as <-.
Qed.

(** On the three squares, the selected edges (1, 2) and (0, 1) weigh no more
    than the spanning tree of the edges (0, 1) and (0, 2). *)
Lemma C2_witness :
  ∃ uf mst,
    kruskal 3 (sort Planar.three_squares_edges) = Some (uf, mst) ∧
    map MstEdge.ends mst = [(1, 2); (0, 1)] ∧
    map Edge.ends (drop 1 (sort Planar.three_squares_edges)) = [(0, 1); (0, 2)] ∧
    (total (map (λ m, @turf_length Planar.turf (MstEdge.seg m)) mst)
       <= total (map Edge.distance (drop 1 (sort Planar.three_squares_edges))))%Q.
Proof.
  destruct (C2_mst_minimal (T := Planar.turf) Planar.three_squares
              Planar.three_squares_edges)
    as (uf & mst & selected & Hk & _ & _ & _ & Hmin & _).
  - simpl. lia.
  - exact three_squares_built.
  - exists uf, mst. split; [exact Hk |]. split.
    + vm_compute in Hk. injection Hk as _ <-. reflexivity.
    + split; [exact (proj2 three_squares_other_tree) |].
      apply Hmin. exact (proj1 three_squares_other_tree).
Defined.

(** C3: for a single shape the operation returns that shape as its output
    and a debug record whose three collections are empty; no call into the
    geometry library is involved, so the result is the same under every
    library. *)
Theorem C3_single_shape (f : Feature) (options : option Options) :
  (∀ T : Turf,
     mergePolygonsWithShortestCorridors [f] options =
       Some (Ok {| output := f;
                   debug := {| pairs := []; mstEdges := [];
                               corridorPolygons := [] |} |})) ∧
  (∀ T1 T2 : Turf,
     mergePolygonsWithShortestCorridors (T := T1) [f] options =
     mergePolygonsWithShortestCorridors (T := T2) [f] options).
Proof. by split. Qed.

(** C10: on the empty input the operation returns no value.  It does not
    take the single-shape exit, builds no edge, accepts no edge, makes no
    corridor, and the loop over the empty piece list leaves the accumulator
    unset, so it throws [Union failed]. *)
Theorem C10_empty_input {T : Turf} (options : option Options) :
  mergePolygonsWithShortestCorridors [] options = Some (Throw "Union failed") ∧
  build_edges [] = Ok [] ∧
  kruskal 0 (sort []) = Some (UF.new 0, []) ∧
  (∀ width, corridors [] width = []) ∧
  union_loop [] None = Ok None ∧
  union_all [] = Throw "Union failed".
Proof. by repeat split. Qed.






Section DoubleWidth.
Import PrimFloat.


End DoubleWidth.

(** C4: when both sample sets are non-empty the connector returns the
    segment joining the first pair of sampled points, in the order of the two
    loops, whose distance is the least over all pairs ([turf.distance]
    returning on the pairs).  When a sample set is empty it goes on to the
    centroids, of [a] and then of [b], and completes as [turf.centroid]
    does: with the segment joining the two centroids when both calls return,
    and with the exception of the first call that throws; then no segment is
    returned. *)
Theorem C4_connector_closest_pair {T : Turf} (a b : Feature) :
  let samplesA := samplePerimeterPoints a 24 in
  let samplesB := samplePerimeterPoints b 24 in
  (samplesA ≠ [] → samplesB ≠ [] →
   distance_defined (sample_pairs samplesA samplesB) →
     ∃ earlier p q later dist,
       sample_pairs samplesA samplesB = earlier ++ (p, q) :: later ∧
       shortestSegmentBetween a b = Ok [p; q] ∧
       p ∈ samplesA ∧ q ∈ samplesB ∧
       turf_distance p q = Ok dist ∧
       (∀ p' q' dist', p' ∈ samplesA → q' ∈ samplesB →
          turf_distance p' q' = Ok dist' → (dist <= dist')%Q) ∧
       (∀ p' q' dist', (p', q') ∈ earlier →
          turf_distance p' q' = Ok dist' → (dist < dist')%Q)) ∧
  (samplesA = [] ∨ samplesB = [] →
     shortestSegmentBetween a b =
       (ca ← turf_centroid a; cb ← turf_centroid b; Ok [ca; cb]) ∧
     (∀ ca cb, turf_centroid a = Ok ca → turf_centroid b = Ok cb →
        shortestSegmentBetween a b = Ok [ca; cb]) ∧
     (∀ msg, turf_centroid a = Throw msg →
        shortestSegmentBetween a b = Throw msg) ∧
     (∀ ca msg, turf_centroid a = Ok ca → turf_centroid b = Throw msg →
        shortestSegmentBetween a b = Throw msg)).
Proof.
  intros samplesA samplesB. split.
  - intros HA HB Hdef.
    unfold shortestSegmentBetween. fold samplesA samplesB.
    destruct (scan_pa_spec samplesB samplesA None Hdef) as (best & -> & Hbest).
    simpl.
    destruct Hbest as [[-> Hall] | (l1 & p & q & l2 & dd & Hsplit & -> & Hd & _ & Hlt & Hle)].
    { exfalso. destruct samplesA as [| p ?]; [done |]. destruct samplesB as [| q ?]; [done |].
      destruct (Hdef p q) as [dq Hdq]; [apply elem_of_sample_pairs; split; by left |].
      apply (Hall p q dq); [| done]. apply elem_of_sample_pairs. split; by left. }
    assert (Hpq : (p, q) ∈ sample_pairs samplesA samplesB).
    { rewrite Hsplit. apply elem_of_app. right. by left. }
    apply elem_of_sample_pairs in Hpq as [Hp Hq].
    exists l1, p, q, l2, dd. simpl.
    split; [done |]. split; [done |]. split; [done |]. split; [done |].
    split; [done |]. split; [| done].
    intros p' q' d' Hp' Hq' Hd'.
    assert (Hin : (p', q') ∈ sample_pairs samplesA samplesB).
    { by apply elem_of_sample_pairs. }
    rewrite Hsplit in Hin.
    apply elem_of_app in Hin as [Hin | [[= -> ->] | Hin]%elem_of_cons].
    + specialize (Hlt _ _ _ Hin Hd'). lra.
    + assert (d' = dd) as -> by congruence. lra.
    + by apply (Hle _ _ _ Hin Hd').
  - intros Hempty.
    assert (Hnil : sample_pairs samplesA samplesB = []).
    { destruct Hempty as [-> | ->]; [done | apply sample_pairs_nil_r]. }
    assert (Hscan : scan_pa samplesA samplesB None = Ok None).
    { destruct (scan_pa_spec samplesB samplesA None) as (best & Hscan & Hbest).
      { rewrite Hnil. by intros p q ?%elem_of_nil. }
      rewrite Hscan. rewrite Hnil in Hbest.
      destruct Hbest as [[-> _] | (l1 & ? & ? & ? & ? & Hsplit & _)]; [done |].
      by destruct l1. }
    assert (Heq : shortestSegmentBetween a b =
              (ca ← turf_centroid a; cb ← turf_centroid b; Ok [ca; cb])).
    { unfold shortestSegmentBetween. fold samplesA samplesB. by rewrite Hscan. }
    split; [exact Heq |]. rewrite Heq.
    split; [| split].
    + by intros ca cb -> ->.
    + by intros msg ->.
    + by intros ca msg -> ->.
Qed.

(** Two squares side by side: the connector joins two sampled points.  A
    polygon without rings and a square: the sample set of the first is
    empty, its centroid throws, and so does the connector. *)
Lemma C4_witness :
  (∃ p q, shortestSegmentBetween (T := Planar.turf)
            (Planar.square 0 0 1 1) (Planar.square 3 0 4 1) = Ok [p; q] ∧
          p ∈ samplePerimeterPoints (Planar.square 0 0 1 1) 24 ∧
          q ∈ samplePerimeterPoints (Planar.square 3 0 4 1) 24) ∧
  samplePerimeterPoints {| geometry := Polygon [] |} 24 = [] ∧
  shortestSegmentBetween (T := Planar.turf)
    {| geometry := Polygon [] |} (Planar.square 0 0 1 1) =
    Throw "coordinates must contain numbers".
Proof.
  split; [| split; [reflexivity |]].
  - destruct (proj1 (C4_connector_closest_pair (T := Planar.turf)
                (Planar.square 0 0 1 1) (Planar.square 3 0 4 1)))
      as (earlier & p & q & later & dist & _ & Hseg & Hp & Hq & _).
    + intros Hnil. vm_compute in Hnil. discriminate Hnil.
    + intros Hnil. vm_compute in Hnil. discriminate Hnil.
    + apply planar_distance_defined.
    + exists p, q. split; [exact Hseg |]. split; [exact Hp | exact Hq].
  - exact (proj1 (proj2 (proj2 (proj2 (C4_connector_closest_pair (T := Planar.turf)
                    {| geometry := Polygon [] |} (Planar.square 0 0 1 1))
                    (or_introl eq_refl))))
             "coordinates must contain numbers"%string eq_refl).
Defined.

(** C5: whenever the graph builder returns, for n shapes, it has produced
    exactly C(n,2) edges, one for each pair of indices a < b < n and no
    other, in the order of the two loops, each with the connector of the two
    shapes as its segment and the length of that segment as its distance;
    the sorted list holds the same edges in ascending order of distance, and
    it is the [pairs] of every result the operation returns. *)
Theorem C5_complete_sorted_graph {T : Turf}
    (features : list Feature) (unsorted : list Edge.t) :
  build_edges (map clone features) = Ok unsorted →
  map Edge.ends unsorted = index_pairs (length features) ∧
  sort unsorted ≡ₚ unsorted ∧
  length (sort unsorted) = length features * (length features - 1) / 2 ∧
  NoDup (map Edge.ends (sort unsorted)) ∧
  (∀ i j, (i, j) ∈ map Edge.ends (sort unsorted) ↔
          i < j ∧ j < length features) ∧
  (∀ e, e ∈ sort unsorted → edge_of_pair (map clone features) e) ∧
  ascending (sort unsorted) ∧
  ∀ options r,
    mergePolygonsWithShortestCorridors features options = Some (Ok r) →
    pairs (debug r) = sort unsorted.
Proof.
  intros Hbuild.
  pose proof (built_edges_facts _ _ Hbuild) as (Hperm & Hasc & _ & _ & Hpair).
  pose proof (build_edges_spec _ _ Hbuild) as [Hends _].
  rewrite length_map in Hperm, Hends.
  assert (Hcount : length (sort unsorted) =
                   length features * (length features - 1) / 2).
  { pose proof (length_index_pairs (length features)) as Hlen.
    rewrite <- Hperm, length_map in Hlen.
    rewrite <- Hlen, (Nat.mul_comm 2). symmetry. by apply Nat.div_mul. }
  split; [done |]. split; [apply sort_perm |]. split; [done |].
  split; [| split; [| split; [| split]]].
  - rewrite Hperm. apply NoDup_index_pairs.
  - intros i j. rewrite Hperm. apply elem_of_index_pairs.
  - intros e He. by apply Hpair.
  - done.
  - intros options r Hmerge.
    destruct (merge_inv_full _ _ _ Hmerge)
      as [(Hone & Hp & _) | (_ & unsorted' & uf & Hbuild' & Hp & _)].
    + rewrite Hp. destruct unsorted as [| e l]; [done |].
      apply (f_equal length) in Hends. rewrite Hone in Hends. done.
    + rewrite Hbuild in Hbuild'. by injection Hbuild' as <-.
Qed.

Lemma C5_witness :
  map Edge.ends Planar.three_squares_edges = [(0, 1); (0, 2); (1, 2)] ∧
  map Edge.ends (sort Planar.three_squares_edges) = [(1, 2); (0, 1); (0, 2)] ∧
  length (sort Planar.three_squares_edges) = 3 ∧
  ascending (sort Planar.three_squares_edges).
Proof.
  destruct (C5_complete_sorted_graph (T := Planar.turf) Planar.three_squares
              Planar.three_squares_edges three_squares_built)
    as (Hends & _ & Hlen & _ & _ & _ & Hasc & _).
  split; [exact Hends |]. split; [reflexivity |].
  split; [exact Hlen | exact Hasc].
Defined.





(** * Concrete runs *)

(** [find(3)] on the chain 3 → 2 → 1 → 0 points every node at the root. *)
Example find_compresses_chain :
  UF.find {| UF.parent := [0; 0; 1; 2]; UF.rank := [3; 2; 1; 0] |} 3 =
    Some ({| UF.parent := [0; 0; 0; 0]; UF.rank := [3; 2; 1; 0] |}, 0).
Proof. reflexivity. Qed.

(** [union] on a tie of ranks hangs the second root under the first and
    raises the rank of the first; on different ranks the lower root is hung
    under the higher. *)
Example union_tie :
  UF.union (UF.new 3) 1 2 = Some {| UF.parent := [0; 1; 1]; UF.rank := [0; 1; 0] |}.
Proof. reflexivity. Qed.

Example union_lower_under_higher :
  UF.union {| UF.parent := [0; 1; 1]; UF.rank := [0; 1; 0] |} 0 2 =
    Some {| UF.parent := [1; 1; 1]; UF.rank := [0; 1; 0] |}.
Proof. reflexivity. Qed.

(** A square ring with the target 24: five interior points on an edge, at
    sixths of the way. *)
Example square_edge_fractions :
  map (λ p, (Qred p.1, Qred p.2)) (edge_samples (0, 0)%Q (6, 0)%Q 24 5) =
    [(1, 0); (2, 0); (3, 0); (4, 0); (5, 0)]%Q.
Proof. by vm_compute. Qed.

(** Two unit squares side by side under the planar instance: the connector
    joins the first closest pair of sampled points. *)
Example planar_connector :
  shortestSegmentBetween (T := Planar.turf)
    (Planar.square 0 0 1 1) (Planar.square 3 0 4 1) = Ok [(1, 0); (3, 0)]%Q.
Proof. by vm_compute. Qed.

(** The three squares under the planar instance: three edges, and the scan
    keeps the two shortest, leaving out the pair (0, 2). *)
Example three_squares_run :
  match mergePolygonsWithShortestCorridors (T := Planar.turf)
          Planar.three_squares None with
  | Some (Ok r) =>
    map Edge.ends (pairs (debug r)) = [(1, 2); (0, 1); (0, 2)] ∧
    map MstEdge.ends (mstEdges (debug r)) = [(1, 2); (0, 1)] ∧
    length (corridorPolygons (debug r)) = 2
  | _ => False
  end.
Proof. by vm_compute. Qed.

(** Without a shape the call throws. *)
Example empty_run :
  mergePolygonsWithShortestCorridors (T := Planar.turf) [] None =
    Some (Throw "Union failed").
Proof. reflexivity. Qed.

(** A polygon without rings next to a square: no sample, no centroid, and
    the exception of the connector leaves the operation. *)
Example empty_polygon_run :
  mergePolygonsWithShortestCorridors (T := Planar.turf)
    [ {| geometry := Polygon [] |}; Planar.square 0 0 1 1 ] None =
    Some (Throw "coordinates must contain numbers").
Proof. by vm_compute. Qed.

(** The three squares with the corridor factor 0: the corridors are
    [undefined], and the union with the first of them throws. *)
Example factor_zero_run :
  mergePolygonsWithShortestCorridors (T := Planar.turf) Planar.three_squares
    (Some {| corridorFactor := Some 0%Q |}) = Some (Throw "TypeError").
Proof. by vm_compute. Qed.

(** * Further properties of [src/utils/geometry.ts] *)

(** ** The disjoint-set structure: ranks *)

Lemma set_parent_id uf x r :
  UF.parent uf !! x = Some r → UF.set_parent uf x r = uf.
Proof.
  intros Hx. destruct uf as [p k]. unfold UF.set_parent. simpl in *.
  by rewrite list_insert_id.
Qed.

(** [find] keeps the ranks and their order along links; the root it returns
    outranks the index it was asked for, unless that index is the root. *)
Lemma find_rec_rank fuel : ∀ uf x uf' r,
  UF.find_rec fuel uf x = Some (uf', r) →
  length (UF.rank uf) = length (UF.parent uf) → rank_increases uf →
  rank_increases uf' ∧ UF.rank uf' = UF.rank uf ∧
  length (UF.parent uf') = length (UF.parent uf) ∧
  r < length (UF.parent uf) ∧
  (r ≠ x → ∀ kx kr,
     UF.rank uf !! x = Some kx → UF.rank uf !! r = Some kr → kx < kr).
Proof.
  induction fuel as [| fuel IH]; intros uf x uf' r; simpl; [done |].
  destruct (UF.parent uf !! x) as [px |] eqn:Hx; simpl; [| done].
  case_decide as Hpx.
  - intros [= <- <-] Hlen Hinv. subst px.
    split; [done |]. split; [done |]. split; [done |].
    split; [by eapply lookup_lt_Some | done].
  - destruct (UF.find_rec fuel uf px) as [[uf1 r1] |] eqn:Hf; simpl; [| done].
    intros [= <- <-] Hlen Hinv.
    destruct (IH _ _ _ _ Hf Hlen Hinv) as (Hinv1 & Hrk1 & Hlen1 & Hr1 & Hup).
    assert (Hxlt : x < length (UF.parent uf)) by (by eapply lookup_lt_Some).
    assert (Hrise : r1 ≠ x → ∀ kx kr,
      UF.rank uf !! x = Some kx → UF.rank uf !! r1 = Some kr → kx < kr).
    { intros Hne kx kr Hkx Hkr.
      destruct (decide (r1 = px)) as [-> | Hnpx]; [by eapply (Hinv x px) |].
      destruct (lookup_lt_is_Some_2 (UF.rank uf) px) as [kp Hkp].
      { rewrite Hlen. destruct fuel; [done |]. simpl in Hf.
        destruct (UF.parent uf !! px) eqn:E; [by eapply lookup_lt_Some | done]. }
      pose proof (Hinv x px kx kp Hx Hpx Hkx Hkp).
      pose proof (Hup Hnpx kp kr Hkp Hkr). lia. }
    split; [| split; [done | split; [| split; [done | done]]]].
    + intros z y kz ky Hz Hyz Hkz Hky. simpl in *.
      rewrite Hrk1 in Hkz, Hky.
      destruct (decide (z = x)) as [-> | Hzx].
      * rewrite list_lookup_insert_eq in Hz by lia. injection Hz as <-.
        by apply Hrise.
      * rewrite list_lookup_insert_ne in Hz by done.
        eapply (Hinv1 z y); try done; by rewrite Hrk1.
    + simpl. by rewrite length_insert.
Qed.

Lemma find_rank uf x uf' r :
  UF.wf uf → rank_increases uf → UF.find uf x = Some (uf', r) →
  rank_increases uf' ∧ UF.rank uf' = UF.rank uf.
Proof.
  intros [Hlen _] Hinv Hf.
  destruct (find_rec_rank _ _ _ _ _ Hf Hlen Hinv) as (? & ? & _). done.
Qed.

Lemma union_rank uf a b uf' :
  UF.wf uf → a < length (UF.parent uf) → b < length (UF.parent uf) →
  rank_increases uf → UF.union uf a b = Some uf' → rank_increases uf'.
Proof.
  intros Hwf Ha Hb Hinv Hu.
  destruct (UFL.union_spec uf a b Hwf Ha Hb)
    as (uf1 & ra & uf2 & rb & uf'' & Hfa & Hfb & Hra & Hrb & Hs & Hrk & Hu' & _ & Heq & Hne).
  rewrite Hu in Hu'. injection Hu' as <-.
  destruct (find_rank _ _ _ _ Hwf Hinv Hfa) as [Hinv1 Hrk1].
  destruct (UFL.find_total uf a Hwf Ha) as (uf1' & ra' & Hfa' & _ & Hwf1 & _).
  rewrite Hfa in Hfa'. injection Hfa' as <- <-.
  destruct (find_rank _ _ _ _ Hwf1 Hinv1 Hfb) as [Hinv2 _].
  destruct (decide (ra = rb)) as [E | Hnab]; [by rewrite (Heq E) |].
  destruct (Hne Hnab) as (ka & kb & Hka & Hkb & ->).
  rewrite <- Hrk in Hka, Hkb.
  assert (Hra2 : UF.parent uf2 !! ra = Some ra).
  { eapply UFL.root_of_root. apply Hs. exact Hra. }
  assert (Hrb2 : UF.parent uf2 !! rb = Some rb).
  { eapply UFL.root_of_root. apply Hs. exact Hrb. }
  assert (Hralt : ra < length (UF.parent uf2)) by (by eapply lookup_lt_Some).
  assert (Hrblt : rb < length (UF.parent uf2)) by (by eapply lookup_lt_Some).
  assert (Hlen2 : length (UF.rank uf2) = length (UF.parent uf2)).
  { rewrite Hrk, (proj1 Hs). apply Hwf. }
  destruct (decide (ka < kb)); [| destruct (decide (kb < ka))].
  - intros z y kz ky Hz Hyz Hkz Hky. simpl in *.
    destruct (decide (z = ra)) as [-> | Hzr].
    + rewrite list_lookup_insert_eq in Hz by done. injection Hz as <-.
      congruence.
    + rewrite list_lookup_insert_ne in Hz by done. by eapply (Hinv2 z y).
  - intros z y kz ky Hz Hyz Hkz Hky. simpl in *.
    destruct (decide (z = rb)) as [-> | Hzr].
    + rewrite list_lookup_insert_eq in Hz by done. injection Hz as <-.
      congruence.
    + rewrite list_lookup_insert_ne in Hz by done. by eapply (Hinv2 z y).
  - assert (ka = kb) as <- by lia.
    intros z y kz ky Hz Hyz Hkz Hky. simpl in *.
    destruct (decide (z = rb)) as [-> | Hzr].
    + rewrite list_lookup_insert_eq in Hz by done. injection Hz as <-.
      rewrite list_lookup_insert_ne in Hkz by done.
      rewrite list_lookup_insert_eq in Hky by lia.
      assert (kz = ka) by congruence. assert (ky = S ka) by congruence. lia.
    + rewrite list_lookup_insert_ne in Hz by done.
      assert (z ≠ ra) by (intros ->; congruence).
      rewrite list_lookup_insert_ne in Hkz by done.
      destruct (decide (y = ra)) as [-> | Hyr].
      * rewrite list_lookup_insert_eq in Hky by lia. injection Hky as <-.
        pose proof (Hinv2 z ra kz ka Hz Hyz Hkz Hka). lia.
      * rewrite list_lookup_insert_ne in Hky by done. by eapply (Hinv2 z y).
Qed.

Lemma new_rank_increases n : rank_increases (UF.new n).
Proof.
  intros x y kx ky Hx Hne. simpl in Hx.
  apply lookup_seq in Hx as [-> _]. done.
Qed.

(** The scan keeps a well-formed structure whose ranks grow along links. *)
Lemma kruskal_scan_rank n edges : ∀ uf mst uf' mst',
  UF.wf uf → length (UF.parent uf) = n → rank_increases uf →
  edges_in_range n edges →
  kruskal_scan n uf mst edges = Some (uf', mst') →
  UF.wf uf' ∧ length (UF.parent uf') = n ∧ rank_increases uf'.
Proof.
  induction edges as [| e edges IH]; intros uf mst uf' mst' Hwf Hlen Hinv Hrange; simpl.
  { by intros [= <- <-]. }
  destruct (Hrange e) as [Ha Hb]; [by left |].
  assert (Hrange' : edges_in_range n edges).
  { intros e' He'. apply Hrange. by right. }
  destruct (UFL.find_total uf (Edge.a e) Hwf) as (uf1 & ra & Hfa & _ & Hwf1 & Hs1 & _);
    [lia |].
  rewrite Hfa. simpl.
  destruct (find_rank _ _ _ _ Hwf Hinv Hfa) as [Hinv1 _].
  assert (Hlen1 : length (UF.parent uf1) = n) by (rewrite (proj1 Hs1); done).
  destruct (UFL.find_total uf1 (Edge.b e) Hwf1) as (uf2 & rb & Hfb & _ & Hwf2 & Hs2 & _);
    [lia |].
  rewrite Hfb. simpl.
  destruct (find_rank _ _ _ _ Hwf1 Hinv1 Hfb) as [Hinv2 _].
  assert (Hlen2 : length (UF.parent uf2) = n) by (rewrite (proj1 Hs2); done).
  case_decide; [| by apply IH].
  destruct (UFL.union_total uf2 (Edge.a e) (Edge.b e) Hwf2)
    as (uf3 & ra' & rb' & Hu & _ & _ & Hwf3 & Hcase); [lia.. |].
  rewrite Hu. simpl.
  assert (Hinv3 : rank_increases uf3) by (eapply union_rank; [| | | | exact Hu]; (done || lia)).
  assert (Hlen3 : length (UF.parent uf3) = n).
  { destruct Hcase as [[_ [Hl _]] | [_ [(Hl & _) | (Hl & _)]]]; congruence. }
  case_decide; [by intros [= <- <-] | by apply IH].
Qed.

Lemma rank_bounds_depth uf x r d :
  length (UF.rank uf) = length (UF.parent uf) → rank_increases uf →
  UF.path_to (UF.parent uf) x r d →
  ∀ kx kr, UF.rank uf !! x = Some kx → UF.rank uf !! r = Some kr → kx + d ≤ kr.
Proof.
  intros Hlen Hinv Hp. induction Hp as [x Hx | x y r d Hx Hne Hp IH]; intros kx kr Hkx Hkr.
  - assert (kx = kr) by congruence. lia.
  - destruct (lookup_lt_is_Some_2 (UF.rank uf) y) as [ky Hky].
    { rewrite Hlen. by eapply UFL.path_to_lt. }
    pose proof (Hinv x y kx ky Hx Hne Hkx Hky). pose proof (IH ky kr Hky Hkr). lia.
Qed.

(** X1: union by rank keeps ranks growing along parent links.  The property
    holds for a new structure, is kept by [find] and by [union], and so holds
    for the structure the Kruskal scan leaves; under it the number of links
    from an index to its root is at most the rank of the root. *)
Theorem X1_ranks_grow_along_links :
  (∀ n, rank_increases (UF.new n)) ∧
  (∀ uf x uf' r,
     UF.wf uf → rank_increases uf → UF.find uf x = Some (uf', r) →
     rank_increases uf' ∧ UF.rank uf' = UF.rank uf) ∧
  (∀ uf a b uf',
     UF.wf uf → a < length (UF.parent uf) → b < length (UF.parent uf) →
     rank_increases uf → UF.union uf a b = Some uf' → rank_increases uf') ∧
  (∀ n edges uf mst,
     edges_in_range n edges → kruskal n edges = Some (uf, mst) →
     rank_increases uf) ∧
  (∀ uf x r d kr,
     UF.wf uf → rank_increases uf → UF.path_to (UF.parent uf) x r d →
     UF.rank uf !! r = Some kr → d ≤ kr).
Proof.
  split; [apply new_rank_increases |]. split; [apply find_rank |].
  split; [apply union_rank |]. split.
  - intros n edges uf mst Hrange Hk.
    eapply (kruskal_scan_rank n edges (UF.new n) [] uf mst); try done.
    + apply UFL.new_wf.
    + apply UFL.new_length.
    + apply new_rank_increases.
  - intros uf x r d kr [Hlen _] Hinv Hp Hkr.
    destruct (lookup_lt_is_Some_2 (UF.rank uf) x) as [kx Hkx].
    { rewrite Hlen. by eapply UFL.path_to_lt. }
    pose proof (rank_bounds_depth uf x r d Hlen Hinv Hp kx kr Hkx Hkr). lia.
Qed.

(** X2: a second [find] of the same index changes nothing: it returns the
    same root and the structure the first call left. *)
Theorem X2_find_is_idempotent (uf : UF.UnionFind) (x : nat)
    (uf' : UF.UnionFind) (r : nat) :
  UF.wf uf → x < length (UF.parent uf) →
  UF.find uf x = Some (uf', r) →
  UF.find uf' x = Some (uf', r) ∧ UF.find uf' r = Some (uf', r).
Proof.
  intros Hwf Hx Hf.
  destruct (UFL.find_total uf x Hwf Hx) as (uf'' & r' & Hf' & Hr & Hwf' & [Hlen Hs] & _ & Hpx).
  rewrite Hf in Hf'. injection Hf' as <- <-.
  assert (Hroot : UF.parent uf' !! r = Some r).
  { eapply UFL.root_of_root. apply Hs. exact Hr. }
  assert (Hrlt : r < length (UF.parent uf')) by (by eapply lookup_lt_Some).
  assert (Hfr : ∀ fuel, UF.find_rec (S fuel) uf' r = Some (uf', r)).
  { intros fuel. simpl. rewrite Hroot. simpl. by rewrite decide_True. }
  split.
  - unfold UF.find. destruct (decide (r = x)) as [-> | Hne].
    + destruct (length (UF.parent uf')) as [| k]; [lia | apply Hfr].
    + destruct (length (UF.parent uf')) as [| [| k]] eqn:Hl; [lia | lia |].
      change (UF.find_rec (S (S k)) uf' x) with
        (px ← UF.parent uf' !! x;
         if decide (px = x) then Some (uf', px)
         else '(uf1, r1) ← UF.find_rec (S k) uf' px; Some (UF.set_parent uf1 x r1, r1)).
      rewrite Hpx. simpl. rewrite decide_False by done.
      rewrite Hroot. simpl. rewrite decide_True by done. simpl.
      by rewrite set_parent_id.
  - unfold UF.find. destruct (length (UF.parent uf')) as [| k]; [lia | apply Hfr].
Qed.

Lemma X2_witness :
  UF.find {| UF.parent := [0; 0; 0; 0]; UF.rank := [3; 2; 1; 0] |} 3 =
    Some ({| UF.parent := [0; 0; 0; 0]; UF.rank := [3; 2; 1; 0] |}, 0).
Proof.
  refine (proj1 (X2_find_is_idempotent
            {| UF.parent := [0; 0; 1; 2]; UF.rank := [3; 2; 1; 0] |} 3
            {| UF.parent := [0; 0; 0; 0]; UF.rank := [3; 2; 1; 0] |} 0 _ _ _)).
  - split; [reflexivity |]. simpl. intros x Hx.
    exists 0. destruct x as [| [| [| [| x]]]]; [| | | | lia].
    + exists 0. by constructor.
    + exists 1. by repeat econstructor.
    + exists 2. by repeat econstructor.
    + exists 3. by repeat econstructor.
  - simpl. lia.
  - reflexivity.
Defined.

(** ** The Kruskal scan on any edge list *)

(** Scanning [l1 ++ l2] is scanning [l1] and then, unless the scan of [l1]
    already left by [break], scanning [l2] from where it stopped. *)
Lemma kruskal_scan_app n l2 : ∀ l1 uf mst uf1 mst1,
  kruskal_scan n uf mst l1 = Some (uf1, mst1) →
  kruskal_scan n uf mst (l1 ++ l2) = Some (uf1, mst1) ∨
  kruskal_scan n uf mst (l1 ++ l2) = kruskal_scan n uf1 mst1 l2.
Proof.
  induction l1 as [| e l1 IH]; intros uf mst uf1 mst1; simpl.
  { intros [= <- <-]. by right. }
  destruct (UF.find uf (Edge.a e)) as [[ufa ra] |]; simpl; [| done].
  destruct (UF.find ufa (Edge.b e)) as [[ufb rb] |]; simpl; [| done].
  case_decide; [| apply IH].
  destruct (UF.union ufb (Edge.a e) (Edge.b e)) as [uf3 |]; simpl; [| done].
  case_decide; [by left | apply IH].
Qed.

(** The accepted edges are taken from the scanned list in its order. *)
Lemma kruskal_scan_sublist n edges : ∀ uf mst uf' mst',
  kruskal_scan n uf mst edges = Some (uf', mst') →
  ∃ more, mst' = mst ++ more ∧ more `sublist_of` map to_mst edges.
Proof.
  induction edges as [| e edges IH]; intros uf mst uf' mst'; simpl.
  { intros [= <- <-]. exists []. by rewrite app_nil_r. }
  destruct (UF.find uf (Edge.a e)) as [[ufa ra] |]; simpl; [| done].
  destruct (UF.find ufa (Edge.b e)) as [[ufb rb] |]; simpl; [| done].
  case_decide.
  - destruct (UF.union ufb (Edge.a e) (Edge.b e)) as [uf3 |]; simpl; [| done].
    case_decide.
    + intros [= <- <-]. exists [to_mst e]. split; [done |].
      apply sublist_skip, sublist_nil_l.
    + intros (more & -> & Hsub)%IH. exists (to_mst e :: more).
      split; [by rewrite <- app_assoc | by apply sublist_skip].
  - intros (more & -> & Hsub)%IH. exists more. split; [done | by apply sublist_cons].
Qed.

(** Once [n - 1] edges are accepted, further edges are all skipped. *)
Lemma scan_saturated n l : ∀ uf mst seen,
  scan_inv n uf mst seen → length mst + 1 = n → edges_in_range n l →
  ∃ uf', kruskal_scan n uf mst l = Some (uf', mst).
Proof.
  induction l as [| e l IH]; intros uf mst seen Hinv Hlen Hrange; [by exists uf |].
  destruct (Hrange e) as [Ha Hb]; [by left |].
  assert (Hrange' : edges_in_range n l).
  { intros e' He'. apply Hrange. by right. }
  destruct (scan_step n uf mst seen e l Hinv Ha Hb)
    as [(_ & uf2 & Hinv2 & ->) | (Hns & _)]; [by eapply IH |].
  exfalso. apply Hns. destruct Hinv as ((Hwf & Hl & _) & _ & Hcount & _).
  apply count_one_same_set; (done || lia).
Qed.

(** X3: on any list of edges between indices below n, the scan returns a
    spanning forest: every accepted edge joined two sets (sets plus accepted
    edges stay n, so at most n − 1 are accepted), the accepted edges are
    edges of the list, and they connect exactly the indices the list
    connects. *)
Theorem X3_kruskal_spanning_forest (n : nat) (edges : list Edge.t) :
  edges_in_range n edges →
  ∃ uf mst,
    kruskal n edges = Some (uf, mst) ∧
    UF.count_roots uf + length mst = n ∧
    length mst ≤ n - 1 ∧
    (∀ m, m ∈ mst → ∃ e, e ∈ edges ∧ m = to_mst e) ∧
    ∀ x y, x < n → y < n →
      (connected (map MstEdge.ends mst) x y ↔ connected (map Edge.ends edges) x y).
Proof.
  intros Hrange.
  destruct (scan_run n edges (UF.new n) [] [] (scan_inv_new n) Hrange)
    as (uf & mst & seen & rest & Hk & Hsplit & Hinv & Hend & _).
  simpl in Hinv. pose proof Hinv as ((Hwf & Hlen & Hc) & Hmr & Hcount & Hseen).
  destruct (kruskal_scan_sublist _ _ _ _ _ _ Hk) as (more & Hmore & Hsub).
  simpl in Hmore. subst more.
  assert (Hmem : ∀ m, m ∈ mst → ∃ e, e ∈ edges ∧ m = to_mst e).
  { intros m Hm. eapply elem_of_sublist in Hm; [| exact Hsub].
    apply list_elem_of_fmap in Hm as (e & -> & He). by exists e. }
  exists uf, mst. split; [done |]. split; [done |]. split; [| split; [done |]].
  - destruct n as [| n]; [lia |].
    pose proof (count_roots_pos uf Hwf ltac:(lia)). lia.
  - intros x y Hx Hy. split.
    + apply connected_mono. intros p (m & -> & Hm)%list_elem_of_fmap.
      destruct (Hmem m Hm) as (e & He & ->).
      apply list_elem_of_fmap. by exists e.
    + intros Hxy. apply Hc; [done.. |].
      destruct Hend as [-> | Hfull].
      * rewrite app_nil_r in Hsplit. subst seen.
        destruct (connected_ind_equiv n (UF.same_set uf) (map Edge.ends edges))
          with (x := x) (y := y) as [-> | (_ & _ & H')]; try done.
        -- intros z Hz. apply same_set_refl; [done | lia].
        -- apply same_set_sym.
        -- apply same_set_trans.
        -- intros u v (e & [= -> ->] & He)%list_elem_of_fmap.
           destruct (Hrange e He). auto.
        -- apply same_set_refl; [done | lia].
      * apply count_one_same_set; (done || lia).
Qed.

Lemma X3_witness :
  ∃ uf mst,
    kruskal 4 [Edge.mk 0 1 1 []; Edge.mk 1 2 2 []; Edge.mk 0 2 3 []] = Some (uf, mst) ∧
    UF.count_roots uf + length mst = 4.
Proof.
  destruct (X3_kruskal_spanning_forest 4
              [Edge.mk 0 1 1 []; Edge.mk 1 2 2 []; Edge.mk 0 2 3 []])
    as (uf & mst & Hk & Hcount & _).
  - intros e He. apply list_elem_of_In in He. simpl in He.
    destruct He as [<- | [<- | [<- | []]]]; simpl; lia.
  - exists uf, mst. split; [exact Hk | exact Hcount].
Defined.

(** X4: the [break] only saves work.  When the scan of a list has accepted
    n − 1 edges, the scan of that list followed by any further edges accepts
    the same edges. *)
Theorem X4_break_saves_work (n : nat) (l1 l2 : list Edge.t)
    (uf : UF.UnionFind) (mst : list MstEdge.t) :
  edges_in_range n (l1 ++ l2) →
  kruskal n l1 = Some (uf, mst) → length mst + 1 = n →
  ∃ uf', kruskal n (l1 ++ l2) = Some (uf', mst).
Proof.
  intros Hrange Hk Hlen.
  assert (Hr1 : edges_in_range n l1).
  { intros e He. apply Hrange, elem_of_app. by left. }
  assert (Hr2 : edges_in_range n l2).
  { intros e He. apply Hrange, elem_of_app. by right. }
  destruct (scan_run n l1 (UF.new n) [] [] (scan_inv_new n) Hr1)
    as (uf1 & mst1 & seen & rest & Hk1 & _ & Hinv & _ & _).
  unfold kruskal in Hk. rewrite Hk in Hk1. injection Hk1 as <- <-.
  destruct (kruskal_scan_app n l2 l1 _ _ _ _ Hk) as [Happ | Happ].
  - by exists uf.
  - unfold kruskal. rewrite Happ. by eapply scan_saturated.
Qed.

Lemma X4_witness :
  ∃ uf', kruskal 3 ([Edge.mk 0 1 1 []; Edge.mk 1 2 2 []] ++ [Edge.mk 0 2 3 []]) =
           Some (uf', [MstEdge.mk 0 1 []; MstEdge.mk 1 2 []]).
Proof.
  eapply (X4_break_saves_work 3 [Edge.mk 0 1 1 []; Edge.mk 1 2 2 []]
            [Edge.mk 0 2 3 []]).
  - intros e He. apply list_elem_of_In in He. simpl in He.
    destruct He as [<- | [<- | [<- | []]]]; simpl; lia.
  - reflexivity.
  - reflexivity.
Defined.

Lemma StronglySorted_sublist {A : Type} (R : A → A → Prop) (l1 l2 : list A) :
  l1 `sublist_of` l2 → StronglySorted R l2 → StronglySorted R l1.
Proof.
  induction 1 as [| x l1 l2 Hsub IH | x l1 l2 Hsub IH]; intros Hs; [done | |].
  - apply StronglySorted_inv in Hs as [Hs Hall]. constructor; [by apply IH |].
    rewrite List.Forall_forall in Hall. apply List.Forall_forall.
    intros y Hy. apply Hall, list_elem_of_In.
    eapply elem_of_sublist; [| exact Hsub]. by apply list_elem_of_In.
  - apply StronglySorted_inv in Hs as [Hs _]. by apply IH.
Qed.

(** X5: in every result the operation returns, [mstEdges] lists edges of
    [pairs] in the order of [pairs] (with their ends and segment), so the
    spanning edges come shortest first; there is one corridor for each of
    them. *)
Theorem X5_mst_edges_follow_pairs {T : Turf}
    (features : list Feature) (options : option Options) (r : MergeResult) :
  mergePolygonsWithShortestCorridors features options = Some (Ok r) →
  mstEdges (debug r) `sublist_of` map to_mst (pairs (debug r)) ∧
  StronglySorted
    (λ m1 m2, (turf_length (MstEdge.seg m1) <= turf_length (MstEdge.seg m2))%Q)
    (mstEdges (debug r)) ∧
  length (corridorPolygons (debug r)) = length (mstEdges (debug r)) ∧
  length (mstEdges (debug r)) ≤ length (pairs (debug r)).
Proof.
  intros Hmerge.
  assert (Hcorr : length (corridorPolygons (debug r)) = length (mstEdges (debug r))).
  { rewrite (merge_inv _ _ _ Hmerge). unfold corridors. by rewrite length_map. }
  destruct (merge_inv_full _ _ _ Hmerge)
    as [(_ & Hp & Hm & _) | (_ & unsorted & uf & Hbuild & Hp & Hk & _)].
  { rewrite Hm in Hcorr. rewrite Hp, Hm, Hcorr.
    split; [constructor |]. split; [apply SSorted_nil | done]. }
  destruct (kruskal_scan_sublist _ _ _ _ _ _ Hk) as (more & Hmore & Hsub).
  simpl in Hmore. subst more. rewrite Hp.
  split; [done |]. split; [| split; [done |]].
  - eapply StronglySorted_sublist; [exact Hsub |].
    pose proof (built_edges_facts _ _ Hbuild) as (_ & Hasc & _ & _ & Hpair).
    assert (Hgen : ∀ l, (∀ e, e ∈ l → Edge.distance e = turf_length (Edge.seg e)) →
      ascending l →
      StronglySorted
        (λ m1 m2, (turf_length (MstEdge.seg m1) <= turf_length (MstEdge.seg m2))%Q)
        (map to_mst l)).
    { induction l as [| e l IH]; intros Hd Hs; [constructor |].
      apply StronglySorted_inv in Hs as [Hs Hall]. simpl. constructor.
      - apply IH; [| done]. intros e' He'. apply Hd. by right.
      - apply List.Forall_forall. intros m Hm.
        apply in_map_iff in Hm as (e' & <- & He').
        rewrite List.Forall_forall in Hall. specialize (Hall e' He').
        simpl. rewrite <- (Hd e) by (by left).
        rewrite <- (Hd e') by (right; by apply list_elem_of_In). done. }
    apply Hgen; [| done].
    intros e He. destruct (Hpair e He) as (_ & ? & ? & _ & _ & _ & Hd). done.
  - apply sublist_length in Hsub. by rewrite length_map in Hsub.
Qed.

Lemma X5_witness :
  ∃ r, mergePolygonsWithShortestCorridors (T := Planar.turf)
         Planar.three_squares None = Some (Ok r) ∧
       mstEdges (debug r) `sublist_of` map to_mst (pairs (debug r)).
Proof.
  destruct three_squares_merge as (r & Hmerge).
  exists r. split; [exact Hmerge |].
  exact (proj1 (X5_mst_edges_follow_pairs (T := Planar.turf) _ _ _ Hmerge)).
Defined.

(** ** The boundary sampler: how many points, and where *)

Lemma length_ring_edges ring : length (ring_edges ring) = length ring - 1.
Proof.
  induction ring as [| a ring IH]; [done |].
  destruct ring as [| b ring]; [done |].
  change (ring_edges (a :: b :: ring)) with ((a, b) :: ring_edges (b :: ring)).
  simpl in *. lia.
Qed.

Lemma length_flat_map_const {A B : Type} (f : A → list B) (k : nat) (l : list A) :
  (∀ x, length (f x) = k) → length (flat_map f l) = length l * k.
Proof.
  intros Hk. induction l as [| x l IH]; [done |].
  simpl. rewrite length_app, Hk, IH. lia.
Qed.

Lemma sample_poly_length (targetPerRing : Q) (ring : list Position)
    (holes : list (list Position)) :
  length (sample_poly targetPerRing (ring :: holes)) =
    length ring +
    (length ring - 1) *
      Z.to_nat (Qceiling (per_edge targetPerRing (length ring)) - 1).
Proof.
  simpl. rewrite length_app. f_equal.
  rewrite (length_flat_map_const _
             (Z.to_nat (Qceiling (per_edge targetPerRing (length ring)) - 1))).
  - by rewrite length_ring_edges.
  - intros [a b]. apply edge_samples_length.
Qed.

(** X6: a polygon with a first ring of [len] positions contributes
    [len + (len − 1) × (ceil(target / (len − 1)) − 1)] samples, whatever its
    holes: its vertices and the interior points of its [len − 1] edges. *)
Theorem X6_sample_count (targetPerRing : Q) (ring : list Position)
    (holes : list (list Position)) :
  length (sample_poly targetPerRing (ring :: holes)) =
    length ring +
    (length ring - 1) *
      Z.to_nat (Qceiling (per_edge targetPerRing (length ring)) - 1) ∧
  length (samplePerimeterPoints {| geometry := Polygon (ring :: holes) |} targetPerRing) =
    length (sample_poly targetPerRing (ring :: holes)).
Proof.
  split; [apply sample_poly_length |].
  unfold samplePerimeterPoints, polys_of. cbn [geometry flat_map].
  by rewrite app_nil_r.
Qed.

Lemma per_edge_exact (k : Z) (len : nat) :
  2 ≤ len →
  (per_edge (inject_Z (k * (Z.of_nat len - 1))) len == inject_Z k)%Q.
Proof.
  intros Hlen. unfold per_edge.
  assert (E : (inject_Z (Z.of_nat len) - 1 == inject_Z (Z.of_nat len - 1))%Q).
  { unfold Qeq. simpl. lia. }
  rewrite E, inject_Z_mult. field.
  intros H0. unfold Qeq in H0. simpl in H0. lia.
Qed.

(** X7: when the target is a multiple k × (len − 1) of the number of edges
    of a ring of [len ≥ 2] positions, the ring gets [k − 1] points on each
    edge and target + 1 samples in all. *)
Theorem X7_samples_reach_target (k : Z) (ring : list Position)
    (holes : list (list Position)) :
  2 ≤ length ring → (1 ≤ k)%Z →
  let target := (k * (Z.of_nat (length ring) - 1))%Z in
  (∀ a b, length (edge_samples a b (inject_Z target) (length ring)) = Z.to_nat (k - 1)) ∧
  Z.of_nat (length (sample_poly (inject_Z target) (ring :: holes))) = (target + 1)%Z.
Proof.
  intros Hlen Hk target.
  assert (Hceil : Qceiling (per_edge (inject_Z target) (length ring)) = k).
  { unfold target. rewrite (per_edge_exact k (length ring) Hlen). apply Qceiling_Z. }
  split.
  - intros a b. by rewrite edge_samples_length, Hceil.
  - rewrite (sample_poly_length (inject_Z target) ring holes), Hceil.
    unfold target. nia.
Qed.

Lemma X7_witness :
  Z.of_nat (length (sample_poly 24
     ([(0, 0); (1, 0); (1, 1); (0, 1); (0, 0)]%Q :: []))) = 25%Z.
Proof.
  refine (proj2 (X7_samples_reach_target 6
            [(0, 0); (1, 0); (1, 1); (0, 1); (0, 0)]%Q [] _ _)).
  - simpl. lia.
  - lia.
Defined.

Lemma flat_map_nil {A B : Type} (f : A → list B) (l : list A) :
  (∀ x, f x = []) → flat_map f l = [].
Proof. intros Hf. induction l as [| x l IH]; [done |]. simpl. by rewrite Hf, IH. Qed.

(** X8: a ring with at least target + 1 positions gets no interior points:
    its polygon is sampled at the vertices of the ring alone. *)
Theorem X8_dense_ring_vertices_only (targetPerRing : Q) (ring : list Position)
    (holes : list (list Position)) :
  2 ≤ length ring →
  (targetPerRing <= inject_Z (Z.of_nat (length ring)) - 1)%Q →
  sample_poly targetPerRing (ring :: holes) = ring.
Proof.
  intros Hlen Ht. simpl. rewrite flat_map_nil; [apply app_nil_r |].
  intros [a b]. simpl.
  assert (Hle : (Qceiling (per_edge targetPerRing (length ring)) <= 1)%Z).
  { rewrite <- (Qceiling_Z 1). apply Qceiling_resp_le. unfold per_edge.
    apply Qle_shift_div_r; [| by rewrite Qmult_1_l].
    assert (E : (inject_Z (Z.of_nat (length ring)) - 1
                 == inject_Z (Z.of_nat (length ring) - 1))%Q).
    { unfold Qeq. simpl. lia. }
    rewrite E. rewrite <- (Zlt_Qlt 0). lia. }
  apply length_zero_iff_nil. rewrite edge_samples_length. lia.
Qed.

Lemma X8_witness :
  sample_poly 2 ([(0, 0); (1, 0); (0, 0)]%Q :: []) = [(0, 0); (1, 0); (0, 0)]%Q.
Proof.
  apply (X8_dense_ring_vertices_only 2 [(0, 0); (1, 0); (0, 0)]%Q []).
  - simpl. lia.
  - by vm_compute.
Defined.

(** * Properties of [src/components/PolygonMerger.tsx] *)

(** ** [computeBounds] *)

Lemma extent_of_visited fc :
  extent_of fc =
    fold_left see (visited fc)
      {| lowX := None; lowY := None; highX := None; highY := None |}.
Proof.
  unfold extent_of, visited.
  generalize {| lowX := None; lowY := None; highX := None; highY := None |}.
  induction (fc_features fc) as [| f fs IH]; intros e; [done |].
  simpl. rewrite IH. rewrite concat_app, fold_left_app. f_equal.
  generalize e. clear. induction (rings_of f) as [| ring rs IH]; intros e; [done |].
  simpl. by rewrite IH, fold_left_app.
Qed.

Lemma fold_see l : ∀ e,
  fold_left see l e =
    {| lowX := fold_left lower (map fst l) (lowX e);
       lowY := fold_left lower (map snd l) (lowY e);
       highX := fold_left raise (map fst l) (highX e);
       highY := fold_left raise (map snd l) (highY e) |}.
Proof.
  induction l as [| p l IH]; intros e; [by destruct e |].
  simpl. by rewrite IH.
Qed.

(** The running minimum: the least of the values seen, and one of them. *)
Lemma fold_lower xs : ∀ m,
  match fold_left lower xs m with
  | None => m = None ∧ xs = []
  | Some v =>
    (∀ x, x ∈ xs → (v <= x)%Q) ∧
    (∀ v0, m = Some v0 → (v <= v0)%Q) ∧
    (v ∈ xs ∨ m = Some v)
  end.
Proof.
  induction xs as [| x xs IH]; intros m; simpl.
  { destruct m as [v |]; [| done]. split; [by intros ? ?%elem_of_nil |].
    split; [| by right]. intros v0 [= <-]. apply Qle_refl. }
  specialize (IH (lower m x)).
  destruct (fold_left lower xs (lower m x)) as [v |].
  2: { destruct IH as [E _]. unfold lower in E.
       destruct m; [destruct (Qlt_le_dec _ _) |]; discriminate. }
  destruct IH as (Hall & Hm & Hin).
  assert (Hvx : (v <= x)%Q).
  { unfold lower in Hm. destruct m as [v0 |]; [| by apply Hm].
    destruct (Qlt_le_dec x v0); [by apply Hm |].
    specialize (Hm v0 eq_refl). lra. }
  split; [| split].
  - intros y [-> | Hy]%elem_of_cons; [done | by apply Hall].
  - intros v0 ->. unfold lower in Hm.
    destruct (Qlt_le_dec x v0); [| by apply Hm]. lra.
  - destruct Hin as [Hin | Hin]; [left; by right |].
    unfold lower in Hin. destruct m as [v0 |]; [| injection Hin as ->; left; by left].
    destruct (Qlt_le_dec x v0); [injection Hin as ->; left; by left | by right].
Qed.

(** The running maximum, likewise. *)
Lemma fold_raise xs : ∀ m,
  match fold_left raise xs m with
  | None => m = None ∧ xs = []
  | Some v =>
    (∀ x, x ∈ xs → (x <= v)%Q) ∧
    (∀ v0, m = Some v0 → (v0 <= v)%Q) ∧
    (v ∈ xs ∨ m = Some v)
  end.
Proof.
  induction xs as [| x xs IH]; intros m; simpl.
  { destruct m as [v |]; [| done]. split; [by intros ? ?%elem_of_nil |].
    split; [| by right]. intros v0 [= <-]. apply Qle_refl. }
  specialize (IH (raise m x)).
  destruct (fold_left raise xs (raise m x)) as [v |].
  2: { destruct IH as [E _]. unfold raise in E.
       destruct m; [destruct (Qlt_le_dec _ _) |]; discriminate. }
  destruct IH as (Hall & Hm & Hin).
  assert (Hvx : (x <= v)%Q).
  { unfold raise in Hm. destruct m as [v0 |]; [| by apply Hm].
    destruct (Qlt_le_dec v0 x); [by apply Hm |].
    specialize (Hm v0 eq_refl). lra. }
  split; [| split].
  - intros y [-> | Hy]%elem_of_cons; [done | by apply Hall].
  - intros v0 ->. unfold raise in Hm.
    destruct (Qlt_le_dec v0 x); [| by apply Hm]. lra.
  - destruct Hin as [Hin | Hin]; [left; by right |].
    unfold raise in Hin. destruct m as [v0 |]; [| injection Hin as ->; left; by left].
    destruct (Qlt_le_dec v0 x); [injection Hin as ->; left; by left | by right].
Qed.

(** The four running values leave their start together: at the first
    position visited. *)
Lemma extent_together fc :
  (visited fc = [] ∧
   extent_of fc = {| lowX := None; lowY := None; highX := None; highY := None |}) ∨
  (visited fc ≠ [] ∧
   ∃ x0 y0 x1 y1,
     extent_of fc =
       {| lowX := Some x0; lowY := Some y0; highX := Some x1; highY := Some y1 |}).
Proof.
  rewrite extent_of_visited, fold_see. simpl.
  destruct (visited fc) as [| p l] eqn:Hv; [by left |]. right. split; [done |].
  pose proof (fold_lower (map fst (p :: l)) None) as H1.
  pose proof (fold_lower (map snd (p :: l)) None) as H2.
  pose proof (fold_raise (map fst (p :: l)) None) as H3.
  pose proof (fold_raise (map snd (p :: l)) None) as H4.
  destruct (fold_left lower (map fst (p :: l)) None) as [x0 |]; [| by destruct H1].
  destruct (fold_left lower (map snd (p :: l)) None) as [y0 |]; [| by destruct H2].
  destruct (fold_left raise (map fst (p :: l)) None) as [x1 |]; [| by destruct H3].
  destruct (fold_left raise (map snd (p :: l)) None) as [y1 |]; [| by destruct H4].
  by exists x0, y0, x1, y1.
Qed.







(** ** [ringToPath] and [polygonPath] *)

Lemma string_app_assoc (a b c : string) : ((a ++ b) ++ c = a ++ (b ++ c))%string.
Proof. induction a as [| ch a IH]; simpl; [done | by rewrite IH]. Qed.

Lemma string_app_nil_r (a : string) : (a ++ "" = a)%string.
Proof. induction a as [| ch a IH]; simpl; [done | by rewrite IH]. Qed.

Lemma join_cons2 (sep x y : string) (l : list string) :
  String.concat sep (x :: y :: l) = (x ++ sep ++ String.concat sep (y :: l))%string.
Proof. done. Qed.

(** Joining two lists that both have elements. *)
Lemma join_app (sep : string) (l1 l2 : list string) :
  l1 ≠ [] → l2 ≠ [] →
  String.concat sep (l1 ++ l2) =
    (String.concat sep l1 ++ sep ++ String.concat sep l2)%string.
Proof.
  intros H1 H2. induction l1 as [| x l1 IH]; [done |].
  destruct l1 as [| y l1].
  - destruct l2 as [| z l2]; [done |]. done.
  - change ((x :: y :: l1) ++ l2) with (x :: y :: (l1 ++ l2)).
    rewrite !join_cons2. change (y :: l1 ++ l2) with ((y :: l1) ++ l2).
    rewrite IH by done. by rewrite !string_app_assoc.
Qed.

Lemma join_concat (sep : string) (lss : list (list string)) :
  (∀ l, l ∈ lss → l ≠ []) →
  String.concat sep (map (String.concat sep) lss) = String.concat sep (concat lss).
Proof.
  induction lss as [| l lss IH]; intros Hne; [done |].
  destruct lss as [| l' lss].
  - simpl. by rewrite app_nil_r.
  - change (map (String.concat sep) (l :: l' :: lss)) with
      (String.concat sep l :: String.concat sep l' :: map (String.concat sep) lss).
    rewrite join_cons2.
    change (String.concat sep l' :: map (String.concat sep) lss) with
      (map (String.concat sep) (l' :: lss)).
    rewrite IH by (intros k Hk; apply Hne; by right).
    change (concat (l :: l' :: lss)) with (l ++ concat (l' :: lss)).
    rewrite join_app; [done | apply Hne; by left |].
    simpl. intros E. apply app_eq_nil in E as [E _].
    by apply (Hne l'); [right; left |].
Qed.

Section SvgProps.
Variable show_number : Q → string.

Lemma join_line_commands (bounds : Bounds) (w h : Q) (rest : list Position) :
  ∀ pt,
  String.concat " "
    (map (λ p, ("L" ++ p)%string)
       (map (λ pt, point_text show_number pt bounds w h) (pt :: rest))) =
  ("L" ++ point_text show_number pt bounds w h
       ++ line_commands show_number rest bounds w h)%string.
Proof.
  induction rest as [| q rest IH]; intros pt.
  - simpl. by rewrite string_app_nil_r.
  - change (map (λ p, ("L" ++ p)%string)
              (map (λ pt, point_text show_number pt bounds w h) (pt :: q :: rest)))
      with (("L" ++ point_text show_number pt bounds w h)%string ::
            map (λ p, ("L" ++ p)%string)
              (map (λ pt, point_text show_number pt bounds w h) (q :: rest))).
    change (map (λ p, ("L" ++ p)%string)
              (map (λ pt, point_text show_number pt bounds w h) (q :: rest)))
      with (("L" ++ point_text show_number q bounds w h)%string ::
            map (λ p, ("L" ++ p)%string)
              (map (λ pt, point_text show_number pt bounds w h) rest)).
    rewrite join_cons2.
    change (("L" ++ point_text show_number q bounds w h)%string ::
            map (λ p, ("L" ++ p)%string)
              (map (λ pt, point_text show_number pt bounds w h) rest))
      with (map (λ p, ("L" ++ p)%string)
              (map (λ pt, point_text show_number pt bounds w h) (q :: rest))).
    rewrite IH. simpl. by rewrite ?string_app_assoc.
Qed.

(** X16: the path of a ring moves to its first point, draws a line to each
    later point in order, and closes; the path of an empty ring is [" Z"],
    with no move. *)
Theorem X16_ring_path_shape (bounds : Bounds) (w h : Q) :
  ringToPath show_number [] bounds w h = " Z"%string ∧
  ∀ pt rest,
    ringToPath show_number (pt :: rest) bounds w h =
      ("M" ++ point_text show_number pt bounds w h
           ++ line_commands show_number rest bounds w h ++ " Z")%string.
Proof.
  split; [done |]. intros pt rest. unfold ringToPath.
  rewrite join_line_commands. simpl. by rewrite string_app_assoc.
Qed.

(** X17: a multi-polygon in which every polygon has a ring gets the path of
    the polygon made of all its rings in order; a polygon without rings
    leaves a stray separator instead. *)
Theorem X17_multipolygon_path (bounds : Bounds) (w h : Q) :
  (∀ coordinates : list (list (list Position)),
     (∀ poly, poly ∈ coordinates → poly ≠ []) →
     polygonPath show_number (MultiPolygon coordinates) bounds w h =
     polygonPath show_number (Polygon (concat coordinates)) bounds w h) ∧
  (∀ ring,
     polygonPath show_number (MultiPolygon [[]; [ring]]) bounds w h =
     (" " ++ polygonPath show_number (Polygon [ring]) bounds w h)%string).
Proof.
  split; [| done]. intros coordinates Hne. simpl.
  rewrite <- (map_map (map (λ ring, ringToPath show_number ring bounds w h))
                      (String.concat " ")).
  rewrite join_concat.
  - f_equal. by rewrite concat_map.
  - intros l (poly & -> & Hpoly)%list_elem_of_fmap E.
    apply (Hne poly Hpoly). by destruct poly.
Qed.

End SvgProps.

(** ** [onMerge] *)

(** X18: [onMerge] calls the merge only with two polygons or more.  Without
    a parsed collection, or with fewer than two polygons in it, it sets an
    error message and leaves result and debug as they were.  Otherwise it
    completes as the merge does: when the merge returns, it clears the error
    and stores the merged shape and a debug record with one spanning edge
    and one corridor entry fewer than there are polygons; what the merge
    throws leaves [onMerge].  No exception leaves it in another way. *)
Theorem X18_onMerge_guards {T : Turf} (parsed : option FeatureCollection)
    (factor : Q) (st : UiState) :
  (parsed = None →
   onMerge parsed factor st =
     Some (Ok {| ui_result := ui_result st; ui_debug := ui_debug st;
                 ui_error := Some "Invalid GeoJSON FeatureCollection"%string |})) ∧
  (∀ fc, parsed = Some fc → length (flattenToPolygons fc) < 2 →
   onMerge parsed factor st =
     Some (Ok {| ui_result := ui_result st; ui_debug := ui_debug st;
                 ui_error := Some "Provide at least two polygons"%string |})) ∧
  (∀ fc r, parsed = Some fc → 2 ≤ length (flattenToPolygons fc) →
   mergePolygonsWithShortestCorridors (flattenToPolygons fc)
     (Some {| corridorFactor := Some factor |}) = Some (Ok r) →
   onMerge parsed factor st =
     Some (Ok {| ui_result := Some (output r); ui_debug := Some (debug r);
                 ui_error := None |}) ∧
   length (mstEdges (debug r)) = length (flattenToPolygons fc) - 1 ∧
   length (corridorPolygons (debug r)) = length (flattenToPolygons fc) - 1) ∧
  (∀ fc msg, parsed = Some fc → 2 ≤ length (flattenToPolygons fc) →
   mergePolygonsWithShortestCorridors (flattenToPolygons fc)
     (Some {| corridorFactor := Some factor |}) = Some (Throw msg) →
   onMerge parsed factor st = Some (Throw msg)) ∧
  (∀ msg, onMerge parsed factor st = Some (Throw msg) →
   ∃ fc, parsed = Some fc ∧ 2 ≤ length (flattenToPolygons fc) ∧
     mergePolygonsWithShortestCorridors (flattenToPolygons fc)
       (Some {| corridorFactor := Some factor |}) = Some (Throw msg)) ∧
  onMerge parsed factor st ≠ None.
Proof.
  split; [by intros -> |]. split; [| split; [| split; [| split]]].
  - intros fc -> Hlt. unfold onMerge. by rewrite decide_True.
  - intros fc r -> Hge Hmerge. unfold onMerge. rewrite decide_False by lia.
    rewrite Hmerge. split; [done |].
    set (polys := flattenToPolygons fc) in *.
    pose proof (merge_inv _ _ _ Hmerge) as Hcorr.
    destruct (merge_inv_full _ _ _ Hmerge)
      as [(Hone & _) | (_ & unsorted & uf & Hbuild & _ & Hk & _)];
      [clearbody polys; lia |].
    destruct (merge_stages polys (Some {| corridorFactor := Some factor |})
                unsorted Hge Hbuild) as (uf' & mst' & Hk' & Hlen & _).
    rewrite Hk in Hk'. injection Hk' as <- <-.
    rewrite Hcorr. unfold corridors. rewrite length_map.
    clearbody polys. split; lia.
  - intros fc msg -> Hge Hmerge. unfold onMerge. rewrite decide_False by lia.
    by rewrite Hmerge.
  - intros msg. unfold onMerge. destruct parsed as [fc |]; [| done].
    case_decide as Hlt; [done |].
    set (polys := flattenToPolygons fc) in *. intros Hthrow.
    exists fc. split; [done |]. fold polys. split; [clearbody polys; lia |].
    destruct (mergePolygonsWithShortestCorridors polys _) as [[r | msg'] |];
      simpl in Hthrow; congruence.
  - unfold onMerge. destruct parsed as [fc |]; [| done].
    case_decide as Hlt; [done |].
    pose proof (merge_completes (flattenToPolygons fc)
                  (Some {| corridorFactor := Some factor |})) as Hsome.
    destruct (mergePolygonsWithShortestCorridors _ _) as [[r | msg'] |]; done.
Qed.

(** The planar merge of the page's example returns. *)
Lemma example_merge :
  ∃ r, mergePolygonsWithShortestCorridors (T := Planar.turf)
         (flattenToPolygons example) (Some {| corridorFactor := Some 1%Q |})
       = Some (Ok r).
Proof.
  destruct (merge_stages (T := Planar.turf) (flattenToPolygons example)
              (Some {| corridorFactor := Some 1%Q |}) _
              ltac:(simpl; lia) three_squares_built)
    as (uf & mst & Hk & _ & _ & _ & Hmerge).
  vm_compute in Hk. injection Hk as <- <-.
  eexists. rewrite Hmerge. by vm_compute.
Qed.

Lemma X18_witness :
  ∃ r, onMerge (T := Planar.turf) (Some example) 1
         {| ui_result := None; ui_debug := None; ui_error := None |} =
       Some (Ok {| ui_result := Some (output r); ui_debug := Some (debug r);
                   ui_error := None |}) ∧
       length (mstEdges (debug r)) = 2.
Proof.
  destruct example_merge as (r & Hmerge).
  destruct (proj1 (proj2 (proj2 (X18_onMerge_guards (T := Planar.turf)
              (Some example) 1
              {| ui_result := None; ui_debug := None; ui_error := None |})))
              example r eq_refl ltac:(simpl; lia) Hmerge)
    as (Hon & Hlen & _).
  exists r. split; [exact Hon | exact Hlen].
Defined.

(** The page's example under the planar instance: bounds, and a merge. *)
Example example_bounds :
  computeBounds example =
    {| minX := 0; minY := 0; maxX := 42 # 10; maxY := 32 # 10 |}.
Proof. reflexivity. Qed.

Example example_without_positions :
  computeBounds {| fc_features := [ {| any_geometry := None |};
                                    {| any_geometry := Some OtherGeometry |};
                                    {| any_geometry := Some (AnyPolygon [[]]) |} ] |}
    = default_bounds.
Proof. reflexivity. Qed.

Example onMerge_one_polygon :
  onMerge (T := Planar.turf)
    (Some {| fc_features := [ {| any_geometry := Some (AnyPolygon []) |};
                              {| any_geometry := None |} ] |}) 1
    {| ui_result := None; ui_debug := None; ui_error := None |} =
  Some (Ok {| ui_result := None; ui_debug := None;
              ui_error := Some "Provide at least two polygons"%string |}).
Proof. reflexivity. Qed.

(** With the factor 0 the corridors are [undefined], and the exception of
    the union with the first of them leaves the planar [onMerge]. *)
Example onMerge_factor_zero :
  onMerge (T := Planar.turf) (Some example) 0
    {| ui_result := None; ui_debug := None; ui_error := None |} =
  Some (Throw "TypeError").
Proof. by vm_compute. Qed.

(** ** The options do not choose the connections *)

(** X19: the corridor factor changes the corridors and the output only: two
    results the operation returns for the same shapes, under any two
    settings of the options, have the same [pairs] and the same
    [mstEdges]. *)
Theorem X19_options_keep_connections {T : Turf} (features : list Feature)
    (options options' : option Options) (r r' : MergeResult) :
  mergePolygonsWithShortestCorridors features options = Some (Ok r) →
  mergePolygonsWithShortestCorridors features options' = Some (Ok r') →
  pairs (debug r') = pairs (debug r) ∧
  mstEdges (debug r') = mstEdges (debug r).
Proof.
  intros Hmerge Hmerge'.
  destruct (merge_inv_full _ _ _ Hmerge)
    as [(Hone & Hp & Hm & _) | (Hn & unsorted & uf & Hbuild & Hp & Hk & _)];
  destruct (merge_inv_full _ _ _ Hmerge')
    as [(Hone' & Hp' & Hm' & _) | (Hn' & unsorted' & uf' & Hbuild' & Hp' & Hk' & _)];
    try done.
  - by rewrite Hp, Hm, Hp', Hm'.
  - rewrite Hbuild in Hbuild'. injection Hbuild' as <-.
    rewrite Hk in Hk'. injection Hk' as _ Hmst.
    by rewrite Hp, Hp', Hmst.
Qed.

Lemma X19_witness :
  ∃ r r',
    mergePolygonsWithShortestCorridors (T := Planar.turf)
      Planar.three_squares None = Some (Ok r) ∧
    mergePolygonsWithShortestCorridors (T := Planar.turf)
      Planar.three_squares (Some {| corridorFactor := Some 3%Q |}) = Some (Ok r') ∧
    mstEdges (debug r') = mstEdges (debug r).
Proof.
  destruct three_squares_merge as (r & Hmerge).
  assert (Hmerge' : ∃ r', mergePolygonsWithShortestCorridors (T := Planar.turf)
            Planar.three_squares (Some {| corridorFactor := Some 3%Q |})
          = Some (Ok r')).
  { destruct (merge_stages (T := Planar.turf) Planar.three_squares
                (Some {| corridorFactor := Some 3%Q |}) _
                ltac:(simpl; lia) three_squares_built)
      as (uf & mst & Hk & _ & _ & _ & Hm).
    vm_compute in Hk. injection Hk as <- <-.
    eexists. rewrite Hm. by vm_compute. }
  destruct Hmerge' as (r' & Hmerge').
  exists r, r'. split; [exact Hmerge |]. split; [exact Hmerge' |].
  exact (proj2 (X19_options_keep_connections (T := Planar.turf) _ _ _ _ _
                  Hmerge Hmerge')).
Defined.
